(** * Uncertainty sampling scores: softmax, margin, ratio, least confidence, entropy

    A shallow embedding of [uncertainty_sampling_pytorch.py] and the
    properties of its five functions.

    Numbers.  A tensor element or a Python float is a [float]: an exact real
    [Fin r], or one of the IEEE-754 specials [PInf], [NInf], [NaN].  The
    arithmetic on finite values is exact (no rounding, no overflow), the two
    zeros are identified (and read as [+0]), and the specials follow the
    IEEE-754 tables, so that [0/0], [0 * log2 0] and the like are [NaN] as
    they are in PyTorch, not errors.  The finite range of a dtype is added
    in [Dtype], where a result too large for the dtype is an infinity.

    Errors.  What Python raises is a value [Raise e] of [result]. *)

From Stdlib Require Import Reals Lra Lia List Bool ZArith Permutation Sorted.
Import ListNotations.
Local Open Scope R_scope.

(** ** Floats *)

Inductive float : Type :=
| Fin (r : R)
| PInf
| NInf
| NaN.

(** Selects by the sign of a finite value. *)
Definition by_sign (r : R) (pos neg zero : float) : float :=
  if Rlt_dec 0 r then pos else if Rlt_dec r 0 then neg else zero.

Definition fneg (x : float) : float :=
  match x with
  | Fin r => Fin (- r)
  | PInf => NInf
  | NInf => PInf
  | NaN => NaN
  end.

Definition fadd (x y : float) : float :=
  match x, y with
  | NaN, _ | _, NaN => NaN
  | Fin a, Fin b => Fin (a + b)
  | PInf, NInf | NInf, PInf => NaN
  | PInf, _ | _, PInf => PInf
  | NInf, _ | _, NInf => NInf
  end.

Definition fsub (x y : float) : float := fadd x (fneg y).

Definition fmul (x y : float) : float :=
  match x, y with
  | NaN, _ | _, NaN => NaN
  | Fin a, Fin b => Fin (a * b)
  | Fin a, PInf | PInf, Fin a => by_sign a PInf NInf NaN
  | Fin a, NInf | NInf, Fin a => by_sign a NInf PInf NaN
  | PInf, PInf | NInf, NInf => PInf
  | PInf, NInf | NInf, PInf => NInf
  end.

(** Tensor division: a zero divisor gives an infinity or [NaN], never an
    exception. *)
Definition fdiv (x y : float) : float :=
  match x, y with
  | NaN, _ | _, NaN => NaN
  | Fin a, Fin b =>
      if Req_dec_T b 0 then by_sign a PInf NInf NaN else Fin (a / b)
  | Fin _, PInf | Fin _, NInf => Fin 0
  | PInf, Fin b => if Rlt_dec b 0 then NInf else PInf
  | NInf, Fin b => if Rlt_dec b 0 then PInf else NInf
  | PInf, PInf | PInf, NInf | NInf, PInf | NInf, NInf => NaN
  end.

Definition log2 (r : R) : R := ln r / ln 2.

(** [torch.log2] on one element. *)
Definition flog2 (x : float) : float :=
  match x with
  | Fin r => by_sign r (Fin (log2 r)) NaN NInf
  | PInf => PInf
  | NInf => NaN
  | NaN => NaN
  end.

(** [base ** x] with a finite Python float [base]: the IEEE-754 [pow]. *)
Definition fpow (base : R) (x : float) : float :=
  match x with
  | Fin r =>
      if Req_dec_T r 0 then Fin 1
      else if Rlt_dec 0 base then Fin (Rpower base r)
      else if Req_dec_T base 0 then by_sign r (Fin 0) PInf (Fin 1)
      else if Req_dec_T (IZR (Int_part r)) r
           then Fin (powerRZ base (Int_part r))
           else NaN
  | PInf =>
      if Rlt_dec (Rabs base) 1 then Fin 0
      else if Req_dec_T (Rabs base) 1 then Fin 1 else PInf
  | NInf =>
      if Rlt_dec (Rabs base) 1 then PInf
      else if Req_dec_T (Rabs base) 1 then Fin 1 else Fin 0
  | NaN => if Req_dec_T base 1 then Fin 1 else NaN
  end.

(** The order [torch.sort] and [torch.max] use: the usual one, with [NaN]
    above everything. *)
Definition fleb (x y : float) : bool :=
  match x, y with
  | _, NaN => true
  | NaN, _ => false
  | _, PInf => true
  | PInf, _ => false
  | NInf, _ => true
  | Fin _, NInf => false
  | Fin a, Fin b => if Rle_dec a b then true else false
  end.

Definition fle (x y : float) : Prop := fleb x y = true.
Definition fge (x y : float) : Prop := fle y x.

Definition fmax (x y : float) : float := if fleb x y then y else x.

(** ** Python results *)

Inductive exn : Type :=
| IndexError
| ZeroDivisionError
| ValueError
| RuntimeError.

Inductive result (A : Type) : Type :=
| Ok (a : A)
| Raise (e : exn).

Arguments Ok {A} a.
Arguments Raise {A} e.

Definition bind {A B : Type} (m : result A) (k : A -> result B) : result B :=
  match m with
  | Ok a => k a
  | Raise e => Raise e
  end.

Notation "x <- m ;; k" := (bind m (fun x => k))
  (at level 61, m at next level, right associativity).

(** [a / b] on Python ints. *)
Definition py_truediv (a b : Z) : result float :=
  if Z.eqb b 0 then Raise ZeroDivisionError else Ok (Fin (IZR a / IZR b)).

(** [math.log2] on a Python int. *)
Definition math_log2 (n : Z) : result float :=
  if Z.leb n 0 then Raise ValueError else Ok (Fin (log2 (IZR n))).

(** ** Tensors (one-dimensional) *)

Definition tensor : Type := list float.

Definition size0 (t : tensor) : Z := Z.of_nat (length t).

(** [t.data[i]] for a non-negative index. *)
Definition data_at (t : tensor) (i : nat) : result float :=
  match nth_error t i with
  | Some x => Ok x
  | None => Raise IndexError
  end.

Definition torch_sum (t : tensor) : float := fold_left fadd t (Fin 0).

(** [torch.max(t)]: the largest element; an empty tensor is refused. *)
Definition torch_max (t : tensor) : result float :=
  match t with
  | [] => Raise RuntimeError
  | x :: t' => Ok (fold_left fmax t' x)
  end.

Fixpoint insert_desc (x : float) (l : tensor) : tensor :=
  match l with
  | [] => [x]
  | y :: l' => if fleb y x then x :: l else y :: insert_desc x l'
  end.

(** The values of [torch.sort(t, descending=True)]: a new tensor. *)
Definition torch_sort_desc (t : tensor) : tensor :=
  fold_right insert_desc [] t.

(** ** The five functions *)

(** The default [base]: [math.exp(1)]. *)
Definition default_base : R := exp 1.

Definition softmax (tensor0 : tensor) (base : R) : tensor :=
  let exps := map (fpow base) tensor0 in
  let sum_exps := torch_sum exps in
  let prob_dist := map (fun e => fdiv e sum_exps) exps in
  prob_dist.

Definition margin_confidence (prob_dist : tensor) (sorted : bool)
  : result float :=
  let prob_dist := if negb sorted then torch_sort_desc prob_dist
                   else prob_dist in
  p0 <- data_at prob_dist 0 ;;
  p1 <- data_at prob_dist 1 ;;
  let difference := fsub p0 p1 in
  let margin_conf := fsub (Fin 1) difference in
  Ok margin_conf.

Definition ratio_confidence (prob_dist : tensor) (sorted : bool)
  : result float :=
  let prob_dist := if negb sorted then torch_sort_desc prob_dist
                   else prob_dist in
  p1 <- data_at prob_dist 1 ;;
  p0 <- data_at prob_dist 0 ;;
  let ratio_conf := fdiv p1 p0 in
  Ok ratio_conf.

Definition least_confidence (prob_dist : tensor) (sorted : bool)
  : result float :=
  simple_least_conf <-
    (if sorted then data_at prob_dist 0 else torch_max prob_dist) ;;
  let num_labels := size0 prob_dist in
  scale <- py_truediv num_labels (num_labels - 1) ;;
  let normalized_least_conf := fmul (fsub (Fin 1) simple_least_conf) scale in
  Ok normalized_least_conf.

Definition entropy_score (prob_dist : tensor) : result float :=
  let log_probs := map (fun p => fmul p (flog2 p)) prob_dist in
  let raw_entropy := fsub (Fin 0) (torch_sum log_probs) in
  denom <- math_log2 (size0 prob_dist) ;;
  let normalized_entropy := fdiv raw_entropy denom in
  Ok normalized_entropy.

(** ** Tensors as objects

    The functions above work on the values of tensors.  Here a tensor is an
    object in a store and a Python variable holds a reference to it, so that
    what a call does to the caller's tensor can be stated.  [torch.sort]
    returns a new tensor; the assignment [prob_dist, _ = torch.sort(...)]
    rebinds the local name [prob_dist] and leaves the object it named
    alone. *)

Module Store.

Definition ref : Type := nat.
Definition heap : Type := list tensor.

Definition deref (h : heap) (r : ref) : tensor := nth r h [].

Definition alloc (t : tensor) (h : heap) : ref * heap :=
  (length h, h ++ [t]).

(** Overwrites the object at [r], as an in-place operation would. *)
Fixpoint assign (r : ref) (t : tensor) (h : heap) : heap :=
  match h, r with
  | [], _ => []
  | _ :: h', O => t :: h'
  | t' :: h', S r' => t' :: assign r' t h'
  end.

(** Computations that read and extend the store and may raise. *)
Definition M (A : Type) : Type := heap -> result A * heap.

Definition ret {A : Type} (a : A) : M A := fun h => (Ok a, h).

Definition mbind {A B : Type} (m : M A) (k : A -> M B) : M B :=
  fun h =>
    match m h with
    | (Ok a, h') => k a h'
    | (Raise e, h') => (Raise e, h')
    end.

Definition lift {A : Type} (f : heap -> result A) : M A :=
  fun h => (f h, h).

Notation "x <~ m ;; k" := (mbind m (fun x => k))
  (at level 61, m at next level, right associativity).

Definition torch_sort (r : ref) : M ref :=
  fun h => let (r', h') := alloc (torch_sort_desc (deref h r)) h in
           (Ok r', h').

(** What [t.sort_(descending=True)] would do; no function here calls it. *)
Definition sort_in_place (r : ref) : M ref :=
  fun h => (Ok r, assign r (torch_sort_desc (deref h r)) h).

Definition item_at (r : ref) (i : nat) : M float :=
  lift (fun h => data_at (deref h r) i).

Definition margin_confidence (prob_dist : ref) (sorted : bool) : M float :=
  prob_dist <~ (if negb sorted then torch_sort prob_dist
                else ret prob_dist) ;;
  p0 <~ item_at prob_dist 0 ;;
  p1 <~ item_at prob_dist 1 ;;
  let difference := fsub p0 p1 in
  let margin_conf := fsub (Fin 1) difference in
  ret margin_conf.

Definition ratio_confidence (prob_dist : ref) (sorted : bool) : M float :=
  prob_dist <~ (if negb sorted then torch_sort prob_dist
                else ret prob_dist) ;;
  p1 <~ item_at prob_dist 1 ;;
  p0 <~ item_at prob_dist 0 ;;
  let ratio_conf := fdiv p1 p0 in
  ret ratio_conf.

Definition least_confidence (prob_dist : ref) (sorted : bool) : M float :=
  simple_least_conf <~
    (if sorted then item_at prob_dist 0
     else lift (fun h => torch_max (deref h prob_dist))) ;;
  num_labels <~ lift (fun h => Ok (size0 (deref h prob_dist))) ;;
  scale <~ lift (fun _ => py_truediv num_labels (num_labels - 1)) ;;
  let normalized_least_conf :=
    fmul (fsub (Fin 1) simple_least_conf) scale in
  ret normalized_least_conf.

(** [h'] is [h] with new objects after it. *)
Definition extends (h h' : heap) : Prop := exists new, h' = h ++ new.

(** A computation that only adds objects to the store. *)
Definition preserves {A : Type} (m : M A) : Prop :=
  forall h, extends h (snd (m h)).

End Store.

(** ** Inputs the properties speak of *)

(** A tensor of finite values. *)
Definition of_reals (v : list R) : tensor := map Fin v.

Definition Rsum (v : list R) : R := fold_right Rplus 0 v.

(** A probability distribution: non-negative entries that sum to one. *)
Definition distribution (v : list R) : Prop :=
  Forall (fun p => 0 <= p) v /\ Rsum v = 1.

(** [p1] and [p2] are the largest and the second largest entry of [v]. *)
Definition top_two (v : list R) (p1 p2 : R) : Prop :=
  exists rest, Permutation v (p1 :: p2 :: rest) /\
               p2 <= p1 /\ Forall (fun x => x <= p2) rest.

(** [m] is the largest entry of [v]. *)
Definition maximum (v : list R) (m : R) : Prop :=
  In m v /\ Forall (fun x => x <= m) v.

(** [1] at position [k], [0] elsewhere. *)
Definition one_hot (n k : nat) : list R :=
  repeat 0 k ++ 1 :: repeat 0 (n - k - 1).

Definition uniform (n : nat) : list R := repeat (/ INR n) n.

(** Shannon entropy in base 2. *)
Definition entropy (v : list R) : R :=
  - Rsum (map (fun p => p * log2 p) v).

(** A finite, strictly positive element. *)
Definition positive_finite (x : float) : Prop := exists p, x = Fin p /\ 0 < p.

(** A finite element (not an infinity, not [NaN]). *)
Definition finite (x : float) : Prop := exists r, x = Fin r.

(** An element that is a probability other than zero. *)
Definition positive_probability (x : float) : Prop :=
  exists p, x = Fin p /\ 0 < p <= 1.

(** The elements of [t] taken in the order [idx] of their positions. *)
Definition rearrange (idx : list nat) (t : tensor) : tensor :=
  map (fun i => nth i t NaN) idx.

(** ** The range of a dtype

    The arithmetic above is exact.  The dtype of a tensor has a finite
    range: a result whose magnitude reaches [overflow_at] (the midpoint
    past the largest finite value) is stored as an infinity, and one whose
    magnitude is at most [underflow_at] (half the smallest positive value)
    as zero.  Rounding between the two is still left out. *)

Record dtype : Type := {
  overflow_at : R;
  underflow_at : R
}.


Definition float64 : dtype :=
  {| overflow_at := (2 - / 2 ^ 53) * 2 ^ 1023; underflow_at := / 2 ^ 1075 |}.

(** A result as the dtype stores it. *)
Definition stored (d : dtype) (x : float) : float :=
  match x with
  | Fin r =>
      if Rle_dec (overflow_at d) r then PInf
      else if Rle_dec r (- overflow_at d) then NInf
      else if Rle_dec (Rabs r) (underflow_at d) then Fin 0
      else Fin r
  | PInf => PInf
  | NInf => NInf
  | NaN => NaN
  end.

Module Dtype.

Definition torch_sum (d : dtype) (t : tensor) : float :=
  fold_left (fun acc x => stored d (fadd acc x)) t (Fin 0).

(** [softmax] on a tensor of dtype [d], every result stored in [d]; the
    base is one that [d] holds as it is, as the default [e] is. *)
Definition softmax (d : dtype) (tensor0 : tensor) (base : R) : tensor :=
  let exps := map (fun x => stored d (fpow base x)) tensor0 in
  let sum_exps := torch_sum d exps in
  let prob_dist := map (fun e => stored d (fdiv e sum_exps)) exps in
  prob_dist.

End Dtype.

(** ** The order on floats *)

Lemma fleb_refl (x : float) : fleb x x = true.
Proof.
  destruct x; simpl; auto.
  destruct (Rle_dec r r); auto. exfalso; lra.
Qed.

Lemma fleb_total (x y : float) : fleb x y = false -> fleb y x = true.
Proof.
  destruct x, y; simpl; auto; try discriminate.
  destruct (Rle_dec r r0), (Rle_dec r0 r); auto; intros _. exfalso; lra.
Qed.

Lemma fle_trans (x y z : float) : fle x y -> fle y z -> fle x z.
Proof.
  unfold fle; destruct x, y, z; simpl; auto; try discriminate.
  destruct (Rle_dec r r0), (Rle_dec r0 r1), (Rle_dec r r1);
    auto; try discriminate.
  intros _ _. exfalso; lra.
Qed.

Lemma fle_antisym (x y : float) : fle x y -> fle y x -> x = y.
Proof.
  unfold fle; destruct x, y; simpl; auto; try discriminate.
  destruct (Rle_dec r r0), (Rle_dec r0 r); try discriminate.
  intros _ _. f_equal. lra.
Qed.

Lemma fle_Fin (a b : R) : fle (Fin a) (Fin b) <-> a <= b.
Proof.
  unfold fle; simpl. destruct (Rle_dec a b); split; auto; discriminate.
Qed.

(** ** [torch_sort_desc] sorts *)

Lemma insert_desc_perm (x : float) (l : tensor) :
  Permutation (x :: l) (insert_desc x l).
Proof.
  induction l as [|y l IH]; simpl.
  - apply Permutation_refl.
  - destruct (fleb y x).
    + apply Permutation_refl.
    + eapply perm_trans; [apply perm_swap|].
      apply perm_skip, IH.
Qed.

Lemma torch_sort_desc_perm (t : tensor) : Permutation t (torch_sort_desc t).
Proof.
  induction t as [|x t IH]; simpl.
  - constructor.
  - eapply perm_trans; [apply perm_skip, IH|].
    apply insert_desc_perm.
Qed.

Lemma insert_desc_sorted (x : float) (l : tensor) :
  StronglySorted fge l -> StronglySorted fge (insert_desc x l).
Proof.
  induction 1 as [|y l Hs IH Hy]; simpl.
  - constructor; constructor.
  - destruct (fleb y x) eqn:E.
    + constructor.
      * constructor; assumption.
      * constructor; [exact E|].
        eapply Forall_impl; [|exact Hy].
        intros z Hz. unfold fge in *. eapply fle_trans; eauto.
    + constructor; [exact IH|].
      eapply Permutation_Forall; [apply insert_desc_perm|].
      constructor; [|exact Hy].
      apply fleb_total, E.
Qed.

Lemma torch_sort_desc_sorted (t : tensor) :
  StronglySorted fge (torch_sort_desc t).
Proof.
  induction t as [|x t IH]; simpl.
  - constructor.
  - apply insert_desc_sorted, IH.
Qed.

(** A descending list is determined by its elements. *)
Lemma sorted_desc_unique (l1 : tensor) :
  forall l2, StronglySorted fge l1 -> StronglySorted fge l2 ->
             Permutation l1 l2 -> l1 = l2.
Proof.
  induction l1 as [|x l1 IH]; intros l2 H1 H2 HP.
  - apply Permutation_nil in HP. now subst.
  - destruct l2 as [|y l2].
    + apply Permutation_sym, Permutation_nil in HP. discriminate.
    + inversion H1 as [|? ? Hs1 Hx]; subst.
      inversion H2 as [|? ? Hs2 Hy]; subst.
      assert (Hxy : x = y).
      { apply fle_antisym.
        - assert (Hin : In x (y :: l2))
            by (eapply Permutation_in; [exact HP | left; reflexivity]).
          destruct Hin as [->|Hin]; [apply fleb_refl|].
          rewrite Forall_forall in Hy. apply Hy, Hin.
        - assert (Hin : In y (x :: l1))
            by (eapply Permutation_in;
                [apply Permutation_sym; exact HP | left; reflexivity]).
          destruct Hin as [->|Hin]; [apply fleb_refl|].
          rewrite Forall_forall in Hx. apply Hx, Hin. }
      subst y. f_equal.
      apply IH; auto.
      eapply Permutation_cons_inv; exact HP.
Qed.

Lemma torch_sort_desc_of_sorted (t t' : tensor) :
  Permutation t t' -> StronglySorted fge t' -> torch_sort_desc t = t'.
Proof.
  intros HP Hs.
  apply sorted_desc_unique; auto using torch_sort_desc_sorted.
  eapply perm_trans; [apply Permutation_sym, torch_sort_desc_perm | exact HP].
Qed.

(** ** Tensors of finite values *)

Lemma fold_fadd_of_reals (l : list R) :
  forall a, fold_left fadd (of_reals l) (Fin a) = Fin (a + Rsum l).
Proof.
  induction l as [|x l IH]; intros a; simpl.
  - f_equal; lra.
  - rewrite IH. f_equal; lra.
Qed.

Lemma torch_sum_of_reals (l : list R) : torch_sum (of_reals l) = Fin (Rsum l).
Proof.
  unfold torch_sum. rewrite fold_fadd_of_reals. f_equal; lra.
Qed.

Lemma fmax_Fin (a b : R) : fmax (Fin a) (Fin b) = Fin (Rmax a b).
Proof.
  unfold fmax, Rmax; simpl. destruct (Rle_dec a b); reflexivity.
Qed.

Lemma fold_fmax_of_reals (l : list R) :
  forall a, fold_left fmax (of_reals l) (Fin a) = Fin (fold_left Rmax l a).
Proof.
  induction l as [|x l IH]; intros a; simpl; auto.
  rewrite fmax_Fin. apply IH.
Qed.

Lemma fold_Rmax_maximum (l : list R) :
  forall a, maximum (a :: l) (fold_left Rmax l a).
Proof.
  unfold maximum.
  induction l as [|x l IH]; intros a; simpl.
  - split; [left; reflexivity|]. constructor; [lra|constructor].
  - destruct (IH (Rmax a x)) as [Hin Hall].
    inversion Hall as [|? ? Hm Hl]; subst.
    pose proof (Rmax_l a x) as Ha. pose proof (Rmax_r a x) as Hx.
    split.
    + simpl in Hin. destruct Hin as [Hin|Hin]; [|simpl; auto].
      remember (fold_left Rmax l (Rmax a x)) as F.
      unfold Rmax in Hin. simpl. destruct (Rle_dec a x); auto.
    + constructor; [lra|]. constructor; [lra|]. exact Hl.
Qed.

Lemma torch_max_of_reals (v : list R) :
  v <> [] ->
  exists m, torch_max (of_reals v) = Ok (Fin m) /\ maximum v m.
Proof.
  destruct v as [|a l]; [congruence|]. intros _.
  exists (fold_left Rmax l a). split.
  - simpl. f_equal. apply fold_fmax_of_reals.
  - apply fold_Rmax_maximum.
Qed.

Lemma maximum_unique (v : list R) (m m' : R) :
  maximum v m -> maximum v m' -> m = m'.
Proof.
  intros [Hi Ha] [Hi' Ha']. rewrite Forall_forall in Ha, Ha'.
  apply Ha' in Hi. apply Ha in Hi'. lra.
Qed.

Lemma sorted_of_reals_inv (s : list R) :
  StronglySorted fge (of_reals s) -> StronglySorted Rge s.
Proof.
  induction s as [|x s IH]; intros H; [constructor|].
  inversion H as [|? ? Hs Hx]; subst.
  constructor; [apply IH, Hs|].
  clear -Hx. induction s as [|y s IH]; [constructor|].
  inversion Hx as [|? ? Hy Hr]; subst.
  constructor; [|apply IH, Hr].
  apply fle_Fin in Hy. lra.
Qed.

(** Sorting a finite tensor gives the descending rearrangement of its
    values. *)
Lemma torch_sort_desc_of_reals (v : list R) :
  exists s, torch_sort_desc (of_reals v) = of_reals s /\
            Permutation v s /\ StronglySorted Rge s.
Proof.
  pose proof (torch_sort_desc_perm (of_reals v)) as HP.
  apply Permutation_sym, Permutation_map_inv in HP.
  destruct HP as [s [Hs HP]].
  exists s. split; [exact Hs|]. split; [exact HP|].
  apply sorted_of_reals_inv. unfold of_reals. rewrite <- Hs.
  apply torch_sort_desc_sorted.
Qed.

Lemma torch_sort_desc_top_two (v : list R) :
  (2 <= length v)%nat ->
  exists p1 p2 rest,
    torch_sort_desc (of_reals v) = of_reals (p1 :: p2 :: rest) /\
    Permutation v (p1 :: p2 :: rest) /\
    p2 <= p1 /\ Forall (fun x => x <= p2) rest.
Proof.
  intros Hlen.
  destruct (torch_sort_desc_of_reals v) as [s [Hs [HP Hsorted]]].
  pose proof (Permutation_length HP) as Hl.
  destruct s as [|p1 [|p2 rest]]; simpl in Hl; try lia.
  exists p1, p2, rest. repeat split; auto.
  - inversion Hsorted as [|? ? _ H1]; subst.
    inversion H1; subst. lra.
  - inversion Hsorted as [|? ? H2 _]; subst.
    inversion H2 as [|? ? _ H3]; subst.
    eapply Forall_impl; [|exact H3]. simpl; intros; lra.
Qed.

Lemma top_two_head (p1 p2 : R) (rest : list R) :
  p2 <= p1 -> Forall (fun x => x <= p2) rest ->
  Forall (fun x => x <= p1) (p2 :: rest).
Proof.
  intros Hp Hr. constructor; [exact Hp|].
  eapply Forall_impl; [|exact Hr]. simpl; intros; lra.
Qed.

(** The largest and second largest entries are determined by the vector. *)
Lemma top_two_unique (v : list R) (p1 p2 q1 q2 : R) :
  top_two v p1 p2 -> top_two v q1 q2 -> p1 = q1 /\ p2 = q2.
Proof.
  intros [r [HP [Hp Hr]]] [r' [HP' [Hq Hr']]].
  pose proof (top_two_head _ _ _ Hp Hr) as H1.
  pose proof (top_two_head _ _ _ Hq Hr') as H1'.
  assert (HPP : Permutation (p1 :: p2 :: r) (q1 :: q2 :: r'))
    by (eapply perm_trans; [apply Permutation_sym, HP | exact HP']).
  assert (E1 : p1 = q1).
  { assert (Hin : In p1 (q1 :: q2 :: r'))
      by (eapply Permutation_in; [exact HPP | left; reflexivity]).
    assert (Hin' : In q1 (p1 :: p2 :: r))
      by (eapply Permutation_in;
          [apply Permutation_sym, HPP | left; reflexivity]).
    rewrite Forall_forall in H1, H1'.
    destruct Hin as [E|Hin]; [auto|]. destruct Hin' as [E|Hin']; [auto|].
    apply H1' in Hin. apply H1 in Hin'. lra. }
  subst q1. split; [reflexivity|].
  apply Permutation_cons_inv in HPP.
  assert (Hin : In p2 (q2 :: r'))
    by (eapply Permutation_in; [exact HPP | left; reflexivity]).
  assert (Hin' : In q2 (p2 :: r))
    by (eapply Permutation_in;
        [apply Permutation_sym, HPP | left; reflexivity]).
  rewrite Forall_forall in Hr, Hr'.
  destruct Hin as [E|Hin]; [auto|]. destruct Hin' as [E|Hin']; [auto|].
  apply Hr' in Hin. apply Hr in Hin'. lra.
Qed.

Lemma top_two_maximum (v : list R) (p1 p2 : R) :
  top_two v p1 p2 -> maximum v p1.
Proof.
  intros [r [HP [Hp Hr]]]. split.
  - eapply Permutation_in; [apply Permutation_sym, HP | left; reflexivity].
  - eapply Permutation_Forall; [apply Permutation_sym, HP|].
    constructor; [lra|]. apply top_two_head; assumption.
Qed.

Lemma sorted_top_two (v : list R) (p1 p2 : R) :
  top_two v p1 p2 ->
  exists rest, torch_sort_desc (of_reals v) = of_reals (p1 :: p2 :: rest).
Proof.
  intros Ht.
  assert (Hlen : (2 <= length v)%nat).
  { destruct Ht as [r [HP _]]. apply Permutation_length in HP.
    rewrite HP. simpl. lia. }
  destruct (torch_sort_desc_top_two v Hlen) as [q1 [q2 [rest [E [HP [Hq Hr]]]]]].
  assert (Ht' : top_two v q1 q2) by (exists rest; auto).
  destruct (top_two_unique _ _ _ _ _ Ht Ht') as [-> ->].
  exists rest. exact E.
Qed.

(** ** Distributions *)

Lemma Rsum_perm (v w : list R) : Permutation v w -> Rsum v = Rsum w.
Proof.
  induction 1; simpl; try lra.
Qed.

Lemma Rsum_nonneg (v : list R) : Forall (fun p => 0 <= p) v -> 0 <= Rsum v.
Proof.
  induction 1; simpl; lra.
Qed.

Lemma Rsum_le_max (v : list R) (m : R) :
  Forall (fun x => x <= m) v -> Rsum v <= INR (length v) * m.
Proof.
  induction 1 as [|x l Hx Hl IH].
  - simpl; lra.
  - change (length (x :: l)) with (S (length l)). rewrite S_INR.
    simpl. lra.
Qed.

Lemma distribution_perm (v w : list R) :
  Permutation v w -> distribution v -> distribution w.
Proof.
  intros HP [Hn Hs]. split.
  - eapply Permutation_Forall; eassumption.
  - rewrite <- (Rsum_perm _ _ HP). exact Hs.
Qed.

Lemma distribution_top_two (v : list R) (p1 p2 : R) :
  distribution v -> top_two v p1 p2 ->
  0 <= p2 /\ p2 <= p1 /\ p1 + p2 <= 1 /\ 0 < p1.
Proof.
  intros Hd [rest [HP [Hp Hr]]].
  destruct (distribution_perm _ _ HP Hd) as [Hn Hs].
  inversion Hn as [|? ? H1 Hn']; subst.
  inversion Hn' as [|? ? H2 Hn'']; subst.
  pose proof (Rsum_nonneg _ Hn'') as H0.
  pose proof (Rsum_le_max _ _ Hr) as Hm.
  pose proof (pos_INR (length rest)) as HN.
  simpl in Hs.
  repeat split; try lra.
  destruct (Rlt_dec 0 p1) as [|Hz]; [assumption|].
  assert (p1 = 0) by lra. assert (p2 = 0) by lra. subst. nra.
Qed.

Lemma distribution_maximum (v : list R) (m : R) :
  distribution v -> maximum v m ->
  m <= 1 /\ 1 <= INR (length v) * m.
Proof.
  intros [Hn Hs] [Hin Hm]. split.
  - apply in_split in Hin. destruct Hin as [l1 [l2 ->]].
    assert (HP : Permutation (l1 ++ m :: l2) (m :: l1 ++ l2))
      by (apply Permutation_sym, Permutation_middle).
    rewrite (Rsum_perm _ _ HP) in Hs.
    eapply Permutation_Forall in Hn; [|exact HP].
    inversion Hn as [|? ? H1 Hn']; subst.
    pose proof (Rsum_nonneg _ Hn'). simpl in Hs. lra.
  - rewrite <- Hs. apply Rsum_le_max, Hm.
Qed.

(** ** The scores on finite tensors *)

Lemma fsub_Fin (a b : R) : fsub (Fin a) (Fin b) = Fin (a - b).
Proof. reflexivity. Qed.

Lemma fdiv_Fin (a b : R) : b <> 0 -> fdiv (Fin a) (Fin b) = Fin (a / b).
Proof.
  intros Hb. simpl. destruct (Req_dec_T b 0); [contradiction|reflexivity].
Qed.

Lemma fdiv_zero_zero : fdiv (Fin 0) (Fin 0) = NaN.
Proof.
  simpl. destruct (Req_dec_T 0 0) as [_|H]; [|exfalso; apply H; reflexivity].
  unfold by_sign. destruct (Rlt_dec 0 0); [exfalso; lra|reflexivity].
Qed.

Lemma margin_confidence_given (a b : R) (rest : list R) :
  margin_confidence (of_reals (a :: b :: rest)) true
  = Ok (Fin (1 - (a - b))).
Proof. reflexivity. Qed.

Lemma margin_confidence_top_two (v : list R) (p1 p2 : R) :
  top_two v p1 p2 ->
  margin_confidence (of_reals v) false = Ok (Fin (1 - (p1 - p2))).
Proof.
  intros Ht. destruct (sorted_top_two _ _ _ Ht) as [rest E].
  unfold margin_confidence. simpl negb. cbv iota. rewrite E. reflexivity.
Qed.

Lemma ratio_confidence_given (a b : R) (rest : list R) :
  ratio_confidence (of_reals (a :: b :: rest)) true = Ok (fdiv (Fin b) (Fin a)).
Proof. reflexivity. Qed.

Lemma ratio_confidence_top_two (v : list R) (p1 p2 : R) :
  top_two v p1 p2 ->
  ratio_confidence (of_reals v) false = Ok (fdiv (Fin p2) (Fin p1)).
Proof.
  intros Ht. destruct (sorted_top_two _ _ _ Ht) as [rest E].
  unfold ratio_confidence. simpl negb. cbv iota. rewrite E. reflexivity.
Qed.

(** [N / (N - 1)] as the code computes it, for [N >= 2]. *)
Lemma py_truediv_labels (v : list R) :
  (2 <= length v)%nat ->
  let N := INR (length v) in
  py_truediv (size0 (of_reals v)) (size0 (of_reals v) - 1)
  = Ok (Fin (N / (N - 1))).
Proof.
  intros Hlen N. unfold py_truediv, size0, of_reals. rewrite length_map.
  destruct (Z.eqb_spec (Z.of_nat (length v) - 1) 0) as [E|_]; [lia|].
  rewrite minus_IZR, <- INR_IZR_INZ. reflexivity.
Qed.

Lemma least_confidence_given (a : R) (rest : list R) :
  (1 <= length rest)%nat ->
  let N := INR (length (a :: rest)) in
  least_confidence (of_reals (a :: rest)) true
  = Ok (Fin ((1 - a) * (N / (N - 1)))).
Proof.
  intros Hlen N. unfold least_confidence.
  rewrite py_truediv_labels by (simpl; lia). reflexivity.
Qed.

Lemma least_confidence_maximum (v : list R) (m : R) :
  (2 <= length v)%nat -> maximum v m ->
  let N := INR (length v) in
  least_confidence (of_reals v) false = Ok (Fin ((1 - m) * (N / (N - 1)))).
Proof.
  intros Hlen Hm N. unfold least_confidence.
  destruct (torch_max_of_reals v) as [m' [E Hm']].
  { intros ->. simpl in Hlen. lia. }
  rewrite (maximum_unique _ _ _ Hm Hm').
  rewrite E, py_truediv_labels by assumption. reflexivity.
Qed.

Lemma least_confidence_range (n : nat) (m : R) :
  (2 <= n)%nat -> m <= 1 -> 1 <= INR n * m ->
  0 <= (1 - m) * (INR n / (INR n - 1)) <= 1.
Proof.
  intros Hn Hm1 HmN.
  assert (H2 : 2 <= INR n) by (apply le_INR in Hn; simpl in Hn; lra).
  assert (Hd : 0 < INR n - 1) by lra.
  assert (Hq : 0 < INR n / (INR n - 1))
    by (apply Rdiv_lt_0_compat; lra).
  split.
  - apply Rmult_le_pos; lra.
  - unfold Rdiv. rewrite <- Rmult_assoc.
    apply (Rmult_le_reg_r (INR n - 1)); [exact Hd|].
    rewrite Rmult_assoc, Rinv_l by lra. nra.
Qed.

(** ** One-hot vectors *)

Lemma one_hot_length (n k : nat) : (k < n)%nat -> length (one_hot n k) = n.
Proof.
  intros Hk. unfold one_hot.
  rewrite length_app. simpl. rewrite !repeat_length. lia.
Qed.

Lemma one_hot_top_two (n k : nat) :
  (2 <= n)%nat -> (k < n)%nat -> top_two (one_hot n k) 1 0.
Proof.
  intros Hn Hk. exists (repeat 0 (n - 2)). split; [|split].
  - unfold one_hot.
    eapply perm_trans; [apply Permutation_sym, Permutation_middle|].
    apply perm_skip. rewrite <- repeat_app.
    replace (k + (n - k - 1))%nat with (S (n - 2)) by lia.
    apply Permutation_refl.
  - lra.
  - apply Forall_forall. intros x Hx. apply repeat_spec in Hx. lra.
Qed.

(** ** Margin of confidence *)

(** C2.  On a probability distribution of length at least 2,
    [margin_confidence] with [sorted = false] returns [1 - (p1 - p2)] for the
    largest and second largest entries [p1], [p2], and that value lies in
    [[0,1]]; with [sorted = true] it returns the same formula on the first
    two entries as they are given. *)
Theorem margin_confidence_spec (v : list R) :
  distribution v -> (2 <= length v)%nat ->
  (exists p1 p2,
      top_two v p1 p2 /\
      margin_confidence (of_reals v) false = Ok (Fin (1 - (p1 - p2))) /\
      0 <= 1 - (p1 - p2) <= 1) /\
  (forall a b rest,
      v = a :: b :: rest ->
      margin_confidence (of_reals v) true = Ok (Fin (1 - (a - b)))).
Proof.
  intros Hd Hlen. split.
  - destruct (torch_sort_desc_top_two v Hlen)
      as [p1 [p2 [rest [_ [HP [Hp Hr]]]]]].
    assert (Ht : top_two v p1 p2) by (exists rest; auto).
    exists p1, p2. split; [exact Ht|]. split.
    + apply margin_confidence_top_two, Ht.
    + destruct (distribution_top_two _ _ _ Hd Ht) as [H0 [H1 [H2 _]]]. lra.
  - intros a b rest ->. apply margin_confidence_given.
Qed.

Lemma margin_confidence_spec_witness :
  distribution [/ 4; / 2; / 4] /\
  exists p1 p2,
    top_two [/ 4; / 2; / 4] p1 p2 /\
    margin_confidence (of_reals [/ 4; / 2; / 4]) false
    = Ok (Fin (1 - (p1 - p2))) /\
    0 <= 1 - (p1 - p2) <= 1.
Proof.
  assert (Hd : distribution [/ 4; / 2; / 4]).
  { split; [repeat constructor; lra | simpl; lra]. }
  split; [exact Hd|].
  apply (margin_confidence_spec [/ 4; / 2; / 4] Hd). simpl; lia.
Defined.

(** C7.  If [dist_sorted] is the descending rearrangement of [dist], then
    [margin_confidence dist_sorted true] and [margin_confidence dist false]
    give the same result (for tensors of any length and content, so also for
    every probability distribution of length at least 2). *)
Theorem margin_confidence_presorted (dist dist_sorted : tensor) :
  Permutation dist dist_sorted -> StronglySorted fge dist_sorted ->
  margin_confidence dist_sorted true = margin_confidence dist false.
Proof.
  intros HP Hs. unfold margin_confidence. simpl negb. cbv iota.
  rewrite (torch_sort_desc_of_sorted _ _ HP Hs). reflexivity.
Qed.

Lemma sorted_desc_of_reals (s : list R) :
  StronglySorted Rge s -> StronglySorted fge (of_reals s).
Proof.
  induction 1 as [|x s Hs IH Hx]; simpl; constructor; auto.
  clear -Hx. induction Hx as [|y s Hy Hr IH]; simpl; constructor; auto.
  apply fle_Fin. lra.
Qed.

Lemma margin_confidence_presorted_witness :
  margin_confidence (of_reals [/ 2; / 4; / 4]) true
  = margin_confidence (of_reals [/ 4; / 2; / 4]) false.
Proof.
  apply margin_confidence_presorted.
  - apply perm_swap.
  - apply sorted_desc_of_reals.
    repeat constructor; lra.
Defined.

(** ** Ratio of confidence *)

(** C3, as the code has it.  On a vector of non-negative entries of length
    at least 2, with [p1], [p2] its largest and second largest entries:
    when [p1 > 0], [ratio_confidence] returns [p2 / p1], a value of the
    closed interval [[0,1]] that is [0] exactly when [p2 = 0]; when
    [p1 = 0] the division is [0/0] and the call returns [NaN] without
    raising.  A probability distribution always has [p1 > 0]. *)
Theorem ratio_confidence_spec (v : list R) :
  Forall (fun p => 0 <= p) v -> (2 <= length v)%nat ->
  exists p1 p2,
    top_two v p1 p2 /\
    (0 < p1 ->
     ratio_confidence (of_reals v) false = Ok (Fin (p2 / p1)) /\
     0 <= p2 / p1 <= 1 /\ (p2 / p1 = 0 <-> p2 = 0)) /\
    (p1 = 0 -> ratio_confidence (of_reals v) false = Ok NaN) /\
    (distribution v -> 0 < p1) /\
    (forall a b rest,
        v = a :: b :: rest -> 0 < a ->
        ratio_confidence (of_reals v) true = Ok (Fin (b / a))).
Proof.
  intros Hn Hlen.
  destruct (torch_sort_desc_top_two v Hlen)
    as [p1 [p2 [rest [_ [HP [Hp Hr]]]]]].
  assert (Ht : top_two v p1 p2) by (exists rest; auto).
  assert (H2 : 0 <= p2).
  { eapply Permutation_Forall in Hn; [|exact HP].
    inversion Hn as [|? ? _ Hn']; subst. inversion Hn'; subst. assumption. }
  exists p1, p2. split; [exact Ht|]. split; [|split].
  - intros Hpos. rewrite (ratio_confidence_top_two _ _ _ Ht).
    rewrite fdiv_Fin by lra. split; [reflexivity|].
    assert (Hi : 0 < / p1) by (apply Rinv_0_lt_compat; exact Hpos).
    split; [split|split].
    + unfold Rdiv. apply Rmult_le_pos; lra.
    + apply (Rmult_le_reg_r p1); [exact Hpos|].
      unfold Rdiv. rewrite Rmult_assoc, Rinv_l by lra. lra.
    + intros E. unfold Rdiv in E.
      apply Rmult_integral in E. destruct E; lra.
    + intros ->. unfold Rdiv. lra.
  - intros ->. assert (p2 = 0) by lra. subst.
    rewrite (ratio_confidence_top_two _ _ _ Ht). f_equal.
    apply fdiv_zero_zero.
  - split.
    + intros Hd. apply (distribution_top_two _ _ _ Hd Ht).
    + intros a b rest' -> Ha. rewrite ratio_confidence_given.
      rewrite fdiv_Fin by lra. reflexivity.
Qed.

Lemma ratio_confidence_spec_witness :
  exists p1 p2,
    top_two [/ 4; / 2; / 4] p1 p2 /\
    (0 < p1 ->
     ratio_confidence (of_reals [/ 4; / 2; / 4]) false = Ok (Fin (p2 / p1)) /\
     0 <= p2 / p1 <= 1 /\ (p2 / p1 = 0 <-> p2 = 0)) /\
    (p1 = 0 ->
     ratio_confidence (of_reals [/ 4; / 2; / 4]) false = Ok NaN) /\
    (distribution [/ 4; / 2; / 4] -> 0 < p1) /\
    (forall a b rest,
        [/ 4; / 2; / 4] = a :: b :: rest -> 0 < a ->
        ratio_confidence (of_reals [/ 4; / 2; / 4]) true = Ok (Fin (b / a))).
Proof.
  apply (ratio_confidence_spec [/ 4; / 2; / 4]).
  - repeat constructor; lra.
  - simpl; lia.
Defined.

(** C3 as stated fails: on the distribution [[1; 0]] the ratio is [0], which
    is not in the half-open interval [(0,1]]; and on [[0; 0]], whose top
    entry is [0], the call returns [NaN] instead of failing. *)
Lemma ratio_confidence_not_half_open :
  distribution [1; 0] /\
  ~ (exists r, ratio_confidence (of_reals [1; 0]) false = Ok (Fin r) /\
               0 < r <= 1) /\
  ratio_confidence (of_reals [0; 0]) false = Ok NaN.
Proof.
  split; [|split].
  - split; [repeat constructor; lra | simpl; lra].
  - intros [r [E Hr]].
    assert (Ht : top_two [1; 0] 1 0).
    { exists []. split; [apply Permutation_refl|]. split; [lra|constructor]. }
    rewrite (ratio_confidence_top_two _ _ _ Ht), fdiv_Fin in E by lra.
    injection E as E. unfold Rdiv in E. lra.
  - assert (Ht : top_two [0; 0] 0 0).
    { exists []. split; [apply Permutation_refl|]. split; [lra|constructor]. }
    rewrite (ratio_confidence_top_two _ _ _ Ht). f_equal.
    apply fdiv_zero_zero.
Qed.

(** ** Least confidence *)

(** C4, as the code has it.  On a probability distribution of length
    [N >= 2], [least_confidence] returns [(1 - p_max) * (N / (N - 1))],
    where [p_max] is the true maximum when [sorted = false] and the first
    entry, taken as it is, when [sorted = true].  The result lies in [[0,1]]
    when [sorted = false], and when [sorted = true] provided the first entry
    is the maximum.  For some distribution whose first entry is not its
    maximum the two calls differ. *)
Theorem least_confidence_spec (v : list R) :
  distribution v -> (2 <= length v)%nat ->
  let N := INR (length v) in
  (exists m,
      maximum v m /\
      least_confidence (of_reals v) false
      = Ok (Fin ((1 - m) * (N / (N - 1)))) /\
      0 <= (1 - m) * (N / (N - 1)) <= 1) /\
  (forall a rest,
      v = a :: rest ->
      least_confidence (of_reals v) true
      = Ok (Fin ((1 - a) * (N / (N - 1)))) /\
      (maximum v a -> 0 <= (1 - a) * (N / (N - 1)) <= 1)) /\
  (exists w,
      distribution w /\ (2 <= length w)%nat /\
      ~ maximum w (hd 0 w) /\
      least_confidence (of_reals w) true
      <> least_confidence (of_reals w) false).
Proof.
  intros Hd Hlen N. split; [|split].
  - destruct (torch_max_of_reals v) as [m [_ Hm]].
    { intros ->. simpl in Hlen. lia. }
    exists m. split; [exact Hm|]. split.
    + apply least_confidence_maximum; assumption.
    + destruct (distribution_maximum _ _ Hd Hm).
      apply least_confidence_range; assumption.
  - intros a rest E. split.
    + subst v. apply least_confidence_given. simpl in Hlen. lia.
    + intros Hm. destruct (distribution_maximum _ _ Hd Hm).
      apply least_confidence_range; assumption.
  - exists [/ 4; 3 / 4]. split; [|split; [|split]].
    + split; [repeat constructor; lra | simpl; lra].
    + simpl; lia.
    + simpl. intros [_ Hall]. inversion Hall as [|? ? _ Hall']; subst.
      inversion Hall'; subst. lra.
    + assert (Hm : maximum [/ 4; 3 / 4] (3 / 4)).
      { split; [simpl; auto|]. repeat constructor; lra. }
      rewrite (least_confidence_maximum [/ 4; 3 / 4] (3 / 4) (le_n 2) Hm).
      rewrite (least_confidence_given (/ 4) [3 / 4] (le_n 1)).
      simpl. intros E. injection E as E. lra.
Qed.

Lemma least_confidence_spec_witness :
  distribution [/ 4; / 2; / 4] /\
  exists m,
    maximum [/ 4; / 2; / 4] m /\
    least_confidence (of_reals [/ 4; / 2; / 4]) false
    = Ok (Fin ((1 - m) * (INR 3 / (INR 3 - 1)))) /\
    0 <= (1 - m) * (INR 3 / (INR 3 - 1)) <= 1.
Proof.
  assert (Hd : distribution [/ 4; / 2; / 4]).
  { split; [repeat constructor; lra | simpl; lra]. }
  split; [exact Hd|].
  apply (least_confidence_spec [/ 4; / 2; / 4] Hd). simpl; lia.
Defined.

(** C4 as stated fails: [[1/10; 9/10]] is a probability distribution of
    length 2, and with [sorted = true] the result is [9/5], outside
    [[0,1]]. *)
Lemma least_confidence_sorted_flag_out_of_range :
  distribution [/ 10; 9 / 10] /\
  least_confidence (of_reals [/ 10; 9 / 10]) true = Ok (Fin (9 / 5)) /\
  ~ (0 <= 9 / 5 <= 1).
Proof.
  split; [|split].
  - split; [repeat constructor; lra | simpl; lra].
  - rewrite (least_confidence_given (/ 10) [9 / 10] (le_n 1)).
    f_equal. f_equal. simpl. lra.
  - lra.
Qed.

(** ** One-hot distributions *)

(** C8.  On [[1; 0; 0; 0]], and on every one-hot vector of length at least
    2, [margin_confidence], [ratio_confidence] and [least_confidence]
    (called with [sorted = false], the default) return [0]; on
    [[1; 0; 0; 0]], which is in descending order, also with
    [sorted = true]. *)
Theorem one_hot_scores (n k : nat) :
  (2 <= n)%nat -> (k < n)%nat ->
  (margin_confidence (of_reals (one_hot n k)) false = Ok (Fin 0) /\
   ratio_confidence (of_reals (one_hot n k)) false = Ok (Fin 0) /\
   least_confidence (of_reals (one_hot n k)) false = Ok (Fin 0)) /\
  (forall sorted,
      margin_confidence (of_reals [1; 0; 0; 0]) sorted = Ok (Fin 0) /\
      ratio_confidence (of_reals [1; 0; 0; 0]) sorted = Ok (Fin 0) /\
      least_confidence (of_reals [1; 0; 0; 0]) sorted = Ok (Fin 0)).
Proof.
  assert (Hgen : forall n k, (2 <= n)%nat -> (k < n)%nat ->
    margin_confidence (of_reals (one_hot n k)) false = Ok (Fin 0) /\
    ratio_confidence (of_reals (one_hot n k)) false = Ok (Fin 0) /\
    least_confidence (of_reals (one_hot n k)) false = Ok (Fin 0)).
  { clear. intros n k Hn Hk.
    pose proof (one_hot_top_two n k Hn Hk) as Ht.
    split; [|split].
    - rewrite (margin_confidence_top_two _ _ _ Ht). do 2 f_equal. lra.
    - rewrite (ratio_confidence_top_two _ _ _ Ht), fdiv_Fin by lra.
      do 2 f_equal. lra.
    - rewrite (least_confidence_maximum _ 1).
      + do 2 f_equal. lra.
      + rewrite one_hot_length; assumption.
      + eapply top_two_maximum; exact Ht. }
  intros Hn Hk. split; [apply Hgen; assumption|].
  intros [|].
  - split; [|split].
    + rewrite margin_confidence_given. do 2 f_equal. lra.
    + rewrite ratio_confidence_given, fdiv_Fin by lra. do 2 f_equal. lra.
    + rewrite (least_confidence_given 1 [0; 0; 0]) by (simpl; lia).
      do 2 f_equal. lra.
  - apply (Hgen 4%nat 0%nat); lia.
Qed.

Lemma one_hot_scores_witness :
  margin_confidence (of_reals (one_hot 4 2)) false = Ok (Fin 0) /\
  ratio_confidence (of_reals (one_hot 4 2)) false = Ok (Fin 0) /\
  least_confidence (of_reals (one_hot 4 2)) false = Ok (Fin 0).
Proof.
  apply (one_hot_scores 4 2); lia.
Defined.

(** ** Entropy *)

Lemma by_sign_pos (r : R) (p n z : float) : 0 < r -> by_sign r p n z = p.
Proof.
  intros Hr. unfold by_sign. destruct (Rlt_dec 0 r); [reflexivity|contradiction].
Qed.

Lemma by_sign_zero (p n z : float) : by_sign 0 p n z = z.
Proof.
  unfold by_sign. destruct (Rlt_dec 0 0); [exfalso; lra|reflexivity].
Qed.

Lemma ln_le_minus_1 (x : R) : 0 < x -> ln x <= x - 1.
Proof.
  intros Hx. destruct (Rle_dec (ln x) (x - 1)) as [|Hn]; [assumption|].
  exfalso. assert (Hlt : x - 1 < ln x) by lra.
  apply exp_increasing in Hlt. rewrite exp_ln in Hlt by assumption.
  pose proof (exp_ineq1_le (x - 1)). lra.
Qed.

Lemma ln_2_pos : 0 < ln 2.
Proof. pose proof ln_lt_2. lra. Qed.

Lemma log2_labels_pos (n : nat) : (2 <= n)%nat -> 0 < log2 (INR n).
Proof.
  intros Hn. unfold log2. apply Rdiv_lt_0_compat; [|apply ln_2_pos].
  rewrite <- ln_1. apply ln_increasing; [lra|].
  apply lt_1_INR. lia.
Qed.

Lemma log_probs_of_reals (v : list R) :
  Forall (fun p => 0 < p) v ->
  map (fun p => fmul p (flog2 p)) (of_reals v)
  = of_reals (map (fun p => p * log2 p) v).
Proof.
  induction 1 as [|p v Hp Hv IH]; simpl; [reflexivity|].
  rewrite by_sign_pos by assumption. simpl. f_equal. exact IH.
Qed.

Lemma math_log2_labels (v : list R) :
  (1 <= length v)%nat ->
  math_log2 (size0 (of_reals v)) = Ok (Fin (log2 (INR (length v)))).
Proof.
  intros Hlen. unfold math_log2, size0, of_reals. rewrite length_map.
  destruct (Z.leb_spec (Z.of_nat (length v)) 0) as [E|_]; [lia|].
  rewrite <- INR_IZR_INZ. reflexivity.
Qed.

Lemma entropy_score_positive (v : list R) :
  Forall (fun p => 0 < p) v -> (2 <= length v)%nat ->
  entropy_score (of_reals v)
  = Ok (Fin (entropy v / log2 (INR (length v)))).
Proof.
  intros Hpos Hlen. unfold entropy_score.
  rewrite log_probs_of_reals by assumption.
  rewrite torch_sum_of_reals, math_log2_labels by lia.
  cbn [bind]. rewrite fsub_Fin, fdiv_Fin.
  - do 2 f_equal. unfold entropy. lra.
  - pose proof (log2_labels_pos _ Hlen). lra.
Qed.

Lemma Rsum_log2 (v : list R) :
  Rsum (map (fun p => p * log2 p) v)
  = Rsum (map (fun p => p * ln p) v) / ln 2.
Proof.
  induction v as [|p v IH]; simpl.
  - unfold Rdiv. lra.
  - rewrite IH. unfold log2, Rdiv. lra.
Qed.

Lemma gibbs_term (n p : R) :
  0 < n -> 0 < p -> - (p * ln p) <= p * ln n + (/ n - p).
Proof.
  intros Hn Hp.
  assert (Hnp : 0 < n * p) by (apply Rmult_lt_0_compat; assumption).
  pose proof (ln_le_minus_1 (/ (n * p)) (Rinv_0_lt_compat _ Hnp)) as H.
  rewrite ln_Rinv, ln_mult in H by assumption.
  assert (E : p * / (n * p) = / n) by (field; lra).
  apply (Rmult_le_compat_l p) in H; [|lra].
  rewrite Rmult_minus_distr_l, E in H. lra.
Qed.

(** Gibbs' inequality against the uniform distribution on [n] points. *)
Lemma gibbs (n : R) (v : list R) :
  0 < n -> Forall (fun p => 0 < p) v ->
  - Rsum (map (fun p => p * ln p) v)
  <= ln n * Rsum v + (INR (length v) / n - Rsum v).
Proof.
  intros Hn. induction 1 as [|p v Hp Hv IH].
  - simpl. unfold Rdiv. lra.
  - change (length (p :: v)) with (S (length v)). rewrite S_INR.
    simpl. pose proof (gibbs_term n p Hn Hp). unfold Rdiv in *. lra.
Qed.

Lemma distribution_le_1 (v : list R) (p : R) :
  distribution v -> In p v -> p <= 1.
Proof.
  intros [Hn Hs] Hin.
  apply in_split in Hin. destruct Hin as [l1 [l2 ->]].
  assert (HP : Permutation (l1 ++ p :: l2) (p :: l1 ++ l2))
    by (apply Permutation_sym, Permutation_middle).
  rewrite (Rsum_perm _ _ HP) in Hs.
  eapply Permutation_Forall in Hn; [|exact HP].
  inversion Hn as [|? ? H1 Hn']; subst.
  pose proof (Rsum_nonneg _ Hn'). simpl in Hs. lra.
Qed.

Lemma plogp_nonpos (v : list R) :
  Forall (fun p => 0 < p <= 1) v ->
  Rsum (map (fun p => p * ln p) v) <= 0.
Proof.
  induction 1 as [|p v [Hp H1] Hv IH]; simpl; [lra|].
  pose proof (ln_le_minus_1 p Hp).
  assert (p * ln p <= 0) by nra. lra.
Qed.

Lemma entropy_range (v : list R) :
  distribution v -> Forall (fun p => 0 < p) v -> (2 <= length v)%nat ->
  0 <= entropy v / log2 (INR (length v)) <= 1.
Proof.
  intros Hd Hpos Hlen.
  pose proof (log2_labels_pos _ Hlen) as HN.
  pose proof ln_2_pos as H2.
  assert (Hlow : 0 <= entropy v).
  { unfold entropy. rewrite Rsum_log2.
    assert (Hs : Rsum (map (fun p => p * ln p) v) <= 0).
    { apply plogp_nonpos. apply Forall_forall. intros p Hin.
      rewrite Forall_forall in Hpos. split; [apply Hpos, Hin|].
      eapply distribution_le_1; eassumption. }
    unfold Rdiv.
    assert (0 <= - Rsum (map (fun p => p * ln p) v) * / ln 2).
    { apply Rmult_le_pos; [lra|].
      apply Rlt_le, Rinv_0_lt_compat, H2. }
    lra. }
  assert (Hup : entropy v <= log2 (INR (length v))).
  { unfold entropy. rewrite Rsum_log2. unfold log2.
    assert (HNpos : 0 < INR (length v)) by (apply lt_0_INR; lia).
    pose proof (gibbs (INR (length v)) v HNpos Hpos) as G.
    destruct Hd as [_ Hs]. rewrite Hs in G.
    unfold Rdiv in G. rewrite Rinv_r in G by lra.
    unfold Rdiv.
    replace (- (Rsum (map (fun p => p * ln p) v) * / ln 2))
      with (- Rsum (map (fun p => p * ln p) v) * / ln 2) by lra.
    apply Rmult_le_compat_r; [|lra].
    apply Rlt_le, Rinv_0_lt_compat, H2. }
  split.
  - unfold Rdiv. apply Rmult_le_pos; [exact Hlow|].
    apply Rlt_le, Rinv_0_lt_compat, HN.
  - apply (Rmult_le_reg_r (log2 (INR (length v)))); [exact HN|].
    unfold Rdiv. rewrite Rmult_assoc, Rinv_l by lra. lra.
Qed.

Lemma Rsum_repeat (x : R) (n : nat) : Rsum (repeat x n) = INR n * x.
Proof.
  induction n as [|n IH].
  - simpl. lra.
  - rewrite S_INR. simpl. rewrite IH. lra.
Qed.

Lemma uniform_length (n : nat) : length (uniform n) = n.
Proof. apply repeat_length. Qed.

Lemma uniform_positive (n : nat) :
  (1 <= n)%nat -> Forall (fun p => 0 < p) (uniform n).
Proof.
  intros Hn. apply Forall_forall. intros p Hp.
  apply repeat_spec in Hp. subst p.
  apply Rinv_0_lt_compat, lt_0_INR. lia.
Qed.

Lemma uniform_distribution (n : nat) :
  (1 <= n)%nat -> distribution (uniform n).
Proof.
  intros Hn. split.
  - eapply Forall_impl; [|apply uniform_positive, Hn]. simpl; intros; lra.
  - unfold uniform. rewrite Rsum_repeat. apply Rinv_r.
    apply not_0_INR. lia.
Qed.

Lemma uniform_maximum (n : nat) :
  (1 <= n)%nat -> maximum (uniform n) (/ INR n).
Proof.
  intros Hn. split.
  - unfold uniform. destruct n as [|n]; [lia|]. left. reflexivity.
  - apply Forall_forall. intros p Hp.
    apply repeat_spec in Hp. subst p. lra.
Qed.

Lemma entropy_uniform (n : nat) :
  (1 <= n)%nat -> entropy (uniform n) = log2 (INR n).
Proof.
  intros Hn. unfold entropy, uniform.
  rewrite map_repeat, Rsum_repeat.
  assert (HN : 0 < INR n) by (apply lt_0_INR; lia).
  unfold log2. rewrite ln_Rinv by assumption.
  pose proof ln_2_pos. field. lra.
Qed.

(** C5.  On a probability distribution of length [N >= 2] whose entries are
    all strictly positive, [entropy_score] returns
    [(- sum p_i * log2 p_i) / log2 N], a value of [[0,1]]; on the uniform
    distribution of length [N >= 2] both [entropy_score] and
    [least_confidence] return [1]. *)
Theorem entropy_score_spec :
  (forall v : list R,
      distribution v -> Forall (fun p => 0 < p) v -> (2 <= length v)%nat ->
      entropy_score (of_reals v)
      = Ok (Fin (entropy v / log2 (INR (length v)))) /\
      0 <= entropy v / log2 (INR (length v)) <= 1) /\
  (forall n : nat,
      (2 <= n)%nat ->
      entropy_score (of_reals (uniform n)) = Ok (Fin 1) /\
      least_confidence (of_reals (uniform n)) false = Ok (Fin 1)).
Proof.
  split.
  - intros v Hd Hpos Hlen. split.
    + apply entropy_score_positive; assumption.
    + apply entropy_range; assumption.
  - intros n Hn.
    assert (HN : 2 <= INR n) by (apply le_INR in Hn; simpl in Hn; lra).
    split.
    + rewrite entropy_score_positive.
      * rewrite uniform_length, entropy_uniform by lia.
        do 2 f_equal. pose proof (log2_labels_pos n Hn). field. lra.
      * apply uniform_positive. lia.
      * rewrite uniform_length. exact Hn.
    + rewrite (least_confidence_maximum (uniform n) (/ INR n)).
      * rewrite uniform_length. do 2 f_equal. field. lra.
      * rewrite uniform_length. exact Hn.
      * apply uniform_maximum. lia.
Qed.

Lemma entropy_score_spec_witness :
  (distribution [/ 2; / 4; / 4] /\
   entropy_score (of_reals [/ 2; / 4; / 4])
   = Ok (Fin (entropy [/ 2; / 4; / 4] / log2 (INR 3))) /\
   0 <= entropy [/ 2; / 4; / 4] / log2 (INR 3) <= 1) /\
  (entropy_score (of_reals (uniform 4)) = Ok (Fin 1) /\
   least_confidence (of_reals (uniform 4)) false = Ok (Fin 1)).
Proof.
  assert (Hd : distribution [/ 2; / 4; / 4]).
  { split; [repeat constructor; lra | simpl; lra]. }
  split.
  - split; [exact Hd|].
    apply (proj1 entropy_score_spec [/ 2; / 4; / 4] Hd).
    + repeat constructor; lra.
    + simpl; lia.
  - apply (proj2 entropy_score_spec 4%nat). lia.
Defined.

Lemma fadd_NaN_r (x : float) : fadd x NaN = NaN.
Proof. destruct x; reflexivity. Qed.

Lemma fold_fadd_NaN (t : tensor) : fold_left fadd t NaN = NaN.
Proof.
  induction t as [|x t IH]; simpl; [reflexivity|exact IH].
Qed.

(** A [NaN] among the summands makes the sum [NaN]. *)
Lemma fold_fadd_In_NaN (t : tensor) :
  forall a, In NaN t -> fold_left fadd t a = NaN.
Proof.
  induction t as [|x t IH]; intros a Hin; [contradiction|].
  simpl. destruct Hin as [->|Hin].
  - rewrite fadd_NaN_r. apply fold_fadd_NaN.
  - apply IH, Hin.
Qed.

Lemma zero_log_zero : fmul (Fin 0) (flog2 (Fin 0)) = NaN.
Proof.
  simpl. rewrite by_sign_zero. simpl. apply by_sign_zero.
Qed.

(** C6.  When an entry of the tensor is exactly [0], its term
    [0 * log2 0] is [NaN] and [entropy_score] returns [NaN], not a real
    number; nothing treats the zero entry apart.  This holds for every
    tensor, so for every probability distribution of length at least 2 with
    a zero entry. *)
Theorem entropy_score_zero_entry (t : tensor) :
  In (Fin 0) t ->
  fmul (Fin 0) (flog2 (Fin 0)) = NaN /\
  entropy_score t = Ok NaN /\
  (forall r, entropy_score t <> Ok (Fin r)).
Proof.
  intros Hin.
  assert (E : entropy_score t = Ok NaN).
  { unfold entropy_score.
    assert (Hnan : In NaN (map (fun p => fmul p (flog2 p)) t)).
    { rewrite <- zero_log_zero.
      apply (in_map (fun p => fmul p (flog2 p))), Hin. }
    unfold torch_sum. rewrite (fold_fadd_In_NaN _ _ Hnan).
    unfold math_log2, size0.
    destruct (Z.leb_spec (Z.of_nat (length t)) 0) as [Hle|_].
    - destruct t; [contradiction|]. simpl length in Hle. lia.
    - reflexivity. }
  split; [apply zero_log_zero|]. split; [exact E|].
  intros r. rewrite E. discriminate.
Qed.

Lemma entropy_score_zero_entry_witness :
  distribution [1; 0; 0; 0] /\
  entropy_score (of_reals [1; 0; 0; 0]) = Ok NaN.
Proof.
  split.
  - split; [repeat constructor; lra | simpl; lra].
  - apply (entropy_score_zero_entry (of_reals [1; 0; 0; 0])).
    simpl. auto.
Defined.

(** ** Softmax *)

Lemma Rpower_pos (b x : R) : 0 < Rpower b x.
Proof. unfold Rpower. apply exp_pos. Qed.

Lemma fpow_pos (base r : R) :
  0 < base -> fpow base (Fin r) = Fin (Rpower base r).
Proof.
  intros Hb. simpl. destruct (Req_dec_T r 0) as [->|_].
  - rewrite Rpower_O by assumption. reflexivity.
  - destruct (Rlt_dec 0 base); [reflexivity|contradiction].
Qed.

Lemma exps_of_reals (base : R) (v : list R) :
  0 < base ->
  map (fpow base) (of_reals v) = of_reals (map (Rpower base) v).
Proof.
  intros Hb. unfold of_reals. rewrite !map_map.
  apply map_ext. intros x. apply fpow_pos, Hb.
Qed.

Lemma Rsum_exps_pos (base : R) (v : list R) :
  v <> [] -> 0 < Rsum (map (Rpower base) v).
Proof.
  destruct v as [|x v]; [congruence|]. intros _. simpl.
  assert (H : 0 <= Rsum (map (Rpower base) v)).
  { apply Rsum_nonneg, Forall_forall. intros y Hy.
    apply in_map_iff in Hy. destruct Hy as [z [<- _]].
    apply Rlt_le, Rpower_pos. }
  pose proof (Rpower_pos base x). lra.
Qed.

Lemma Rsum_map_div (f : R -> R) (s : R) (v : list R) :
  Rsum (map (fun x => f x / s) v) = Rsum (map f v) / s.
Proof.
  induction v as [|x v IH]; simpl.
  - unfold Rdiv. lra.
  - rewrite IH. unfold Rdiv. lra.
Qed.

Lemma softmax_of_reals (base : R) (v : list R) :
  0 < base -> v <> [] ->
  softmax (of_reals v) base
  = of_reals (map (fun x => Rpower base x / Rsum (map (Rpower base) v)) v).
Proof.
  intros Hb Hv. unfold softmax.
  rewrite exps_of_reals by assumption. rewrite torch_sum_of_reals.
  pose proof (Rsum_exps_pos base v Hv) as Hs.
  unfold of_reals. rewrite !map_map. apply map_ext. intros x.
  apply fdiv_Fin. lra.
Qed.


Lemma default_base_pos : 0 < default_base.
Proof. apply exp_pos. Qed.





Lemma Rsum_exps_shift (base c : R) (v : list R) :
  Rsum (map (Rpower base) (map (fun x => x + c) v))
  = Rpower base c * Rsum (map (Rpower base) v).
Proof.
  induction v as [|x v IH]; simpl.
  - lra.
  - rewrite IH, Rpower_plus. lra.
Qed.

(** C10.  Adding a constant to every input leaves [softmax] unchanged, for
    every tensor of finite values and every positive base: the factor
    [base ^ c] is common to each exponential and to their sum. *)
Theorem softmax_shift_invariant (v : list R) (c base : R) :
  0 < base ->
  softmax (of_reals (map (fun x => x + c) v)) base
  = softmax (of_reals v) base.
Proof.
  intros Hb. destruct v as [|a v]; [reflexivity|].
  rewrite !softmax_of_reals by (assumption || (simpl; discriminate)).
  f_equal. rewrite map_map. apply map_ext. intros x.
  rewrite Rsum_exps_shift, Rpower_plus.
  pose proof (Rsum_exps_pos base (a :: v)) as Hs.
  assert (0 < Rsum (map (Rpower base) (a :: v)))
    by (apply Hs; discriminate).
  pose proof (Rpower_pos base c). field. lra.
Qed.

Lemma softmax_shift_invariant_witness :
  softmax (of_reals (map (fun x => x + - 4) [1; 4; 2; 3])) default_base
  = softmax (of_reals [1; 4; 2; 3]) default_base.
Proof.
  apply (softmax_shift_invariant [1; 4; 2; 3] (- 4) default_base).
  apply default_base_pos.
Defined.

(** ** The caller's tensor *)

Lemma extends_refl (h : Store.heap) : Store.extends h h.
Proof. exists []. symmetry. apply app_nil_r. Qed.

Lemma extends_trans (h1 h2 h3 : Store.heap) :
  Store.extends h1 h2 -> Store.extends h2 h3 -> Store.extends h1 h3.
Proof.
  intros [n1 ->] [n2 ->]. exists (n1 ++ n2). symmetry. apply app_assoc.
Qed.

(** The objects of the smaller store keep their content. *)
Lemma extends_deref (h h' : Store.heap) (r : Store.ref) :
  Store.extends h h' -> (r < length h)%nat ->
  Store.deref h' r = Store.deref h r.
Proof.
  intros [new ->] Hr. unfold Store.deref. apply app_nth1, Hr.
Qed.

Lemma preserves_ret {A : Type} (a : A) : Store.preserves (Store.ret a).
Proof. intros h. apply extends_refl. Qed.

Lemma preserves_lift {A : Type} (f : Store.heap -> result A) :
  Store.preserves (Store.lift f).
Proof. intros h. apply extends_refl. Qed.

Lemma preserves_torch_sort (r : Store.ref) :
  Store.preserves (Store.torch_sort r).
Proof.
  intros h. unfold Store.torch_sort, Store.alloc. simpl.
  eexists. reflexivity.
Qed.

Lemma preserves_mbind {A B : Type} (m : Store.M A) (k : A -> Store.M B) :
  Store.preserves m -> (forall a, Store.preserves (k a)) ->
  Store.preserves (Store.mbind m k).
Proof.
  intros Hm Hk h. unfold Store.mbind.
  specialize (Hm h). destruct (m h) as [[a|e] h1]; simpl in *.
  - eapply extends_trans; [exact Hm|]. apply Hk.
  - exact Hm.
Qed.

Ltac preserves_step :=
  first [ apply preserves_ret
        | apply preserves_lift
        | apply preserves_torch_sort
        | apply preserves_mbind; [|intros ?] ].

Lemma preserves_margin_confidence (r : Store.ref) (sorted : bool) :
  Store.preserves (Store.margin_confidence r sorted).
Proof.
  unfold Store.margin_confidence, Store.item_at.
  destruct sorted; simpl negb; cbv iota; repeat preserves_step.
Qed.

Lemma preserves_ratio_confidence (r : Store.ref) (sorted : bool) :
  Store.preserves (Store.ratio_confidence r sorted).
Proof.
  unfold Store.ratio_confidence, Store.item_at.
  destruct sorted; simpl negb; cbv iota; repeat preserves_step.
Qed.

Lemma preserves_least_confidence (r : Store.ref) (sorted : bool) :
  Store.preserves (Store.least_confidence r sorted).
Proof.
  unfold Store.least_confidence, Store.item_at.
  destruct sorted; repeat preserves_step.
Qed.

(** The store versions compute what the functions on values compute. *)
Lemma deref_alloc (h : Store.heap) (t : tensor) :
  Store.deref (h ++ [t]) (length h) = t.
Proof.
  unfold Store.deref. rewrite app_nth2 by lia.
  rewrite Nat.sub_diag. reflexivity.
Qed.

Lemma store_margin_confidence_value
  (h : Store.heap) (r : Store.ref) (sorted : bool) :
  fst (Store.margin_confidence r sorted h)
  = margin_confidence (Store.deref h r) sorted.
Proof.
  destruct sorted;
    cbv beta iota zeta delta
      [Store.margin_confidence margin_confidence Store.mbind Store.item_at
       Store.lift Store.ret Store.torch_sort Store.alloc negb].
  - destruct (data_at (Store.deref h r) 0); simpl; [|reflexivity].
    destruct (data_at (Store.deref h r) 1); reflexivity.
  - rewrite deref_alloc.
    destruct (data_at (torch_sort_desc (Store.deref h r)) 0);
      simpl; [|reflexivity].
    destruct (data_at (torch_sort_desc (Store.deref h r)) 1); reflexivity.
Qed.

Lemma store_ratio_confidence_value
  (h : Store.heap) (r : Store.ref) (sorted : bool) :
  fst (Store.ratio_confidence r sorted h)
  = ratio_confidence (Store.deref h r) sorted.
Proof.
  destruct sorted;
    cbv beta iota zeta delta
      [Store.ratio_confidence ratio_confidence Store.mbind Store.item_at
       Store.lift Store.ret Store.torch_sort Store.alloc negb].
  - destruct (data_at (Store.deref h r) 1); simpl; [|reflexivity].
    destruct (data_at (Store.deref h r) 0); reflexivity.
  - rewrite deref_alloc.
    destruct (data_at (torch_sort_desc (Store.deref h r)) 1);
      simpl; [|reflexivity].
    destruct (data_at (torch_sort_desc (Store.deref h r)) 0); reflexivity.
Qed.

Lemma store_least_confidence_value
  (h : Store.heap) (r : Store.ref) (sorted : bool) :
  fst (Store.least_confidence r sorted h)
  = least_confidence (Store.deref h r) sorted.
Proof.
  destruct sorted;
    cbv beta iota zeta delta
      [Store.least_confidence least_confidence Store.mbind Store.item_at
       Store.lift Store.ret].
  - destruct (data_at (Store.deref h r) 0); simpl; [|reflexivity].
    destruct (py_truediv _ _); reflexivity.
  - destruct (torch_max (Store.deref h r)); simpl; [|reflexivity].
    destruct (py_truediv _ _); reflexivity.
Qed.

(** An in-place sort would not leave the caller's tensor alone. *)
Lemma sort_in_place_mutates :
  let h := [of_reals [0; 1]] in
  Store.deref (snd (Store.sort_in_place 0%nat h)) 0%nat = of_reals [1; 0] /\
  Store.deref h 0%nat = of_reals [0; 1].
Proof.
  simpl. split; [|reflexivity].
  unfold Store.deref. simpl.
  destruct (Rle_dec 1 0) as [H|_]; [exfalso; lra|reflexivity].
Qed.

(** C9.  A call of [margin_confidence], [ratio_confidence] or
    [least_confidence] with [sorted = false] leaves the caller's tensor as
    it was: the sorted values are a new object, and after the call (whether
    it returned or raised) the input object has the content it had before;
    so has every other object of the store. *)
Theorem scores_leave_input_unchanged
  (h : Store.heap) (prob_dist : Store.ref) :
  (prob_dist < length h)%nat ->
  Store.deref (snd (Store.margin_confidence prob_dist false h)) prob_dist
  = Store.deref h prob_dist /\
  Store.deref (snd (Store.ratio_confidence prob_dist false h)) prob_dist
  = Store.deref h prob_dist /\
  Store.deref (snd (Store.least_confidence prob_dist false h)) prob_dist
  = Store.deref h prob_dist /\
  (forall other, (other < length h)%nat ->
     Store.deref (snd (Store.margin_confidence prob_dist false h)) other
     = Store.deref h other /\
     Store.deref (snd (Store.ratio_confidence prob_dist false h)) other
     = Store.deref h other /\
     Store.deref (snd (Store.least_confidence prob_dist false h)) other
     = Store.deref h other).
Proof.
  intros Hr.
  assert (Hall : forall other, (other < length h)%nat ->
     Store.deref (snd (Store.margin_confidence prob_dist false h)) other
     = Store.deref h other /\
     Store.deref (snd (Store.ratio_confidence prob_dist false h)) other
     = Store.deref h other /\
     Store.deref (snd (Store.least_confidence prob_dist false h)) other
     = Store.deref h other).
  { intros other Ho. repeat split; apply extends_deref; trivial.
    - apply preserves_margin_confidence.
    - apply preserves_ratio_confidence.
    - apply preserves_least_confidence. }
  destruct (Hall prob_dist Hr) as [H1 [H2 H3]].
  repeat split; trivial; apply Hall; assumption.
Qed.

Lemma scores_leave_input_unchanged_witness :
  let h := [of_reals [/ 4; / 2; / 4]] in
  Store.deref (snd (Store.margin_confidence 0%nat false h)) 0%nat
  = of_reals [/ 4; / 2; / 4] /\
  Store.deref (snd (Store.ratio_confidence 0%nat false h)) 0%nat
  = of_reals [/ 4; / 2; / 4] /\
  Store.deref (snd (Store.least_confidence 0%nat false h)) 0%nat
  = of_reals [/ 4; / 2; / 4].
Proof.
  intros h.
  destruct (scores_leave_input_unchanged h 0%nat) as [H1 [H2 [H3 _]]].
  - simpl; lia.
  - repeat split; assumption.
Defined.

(** * Further properties of the five functions *)

(** ** What is raised on short tensors *)

Lemma data_at_in_range (t : tensor) (i : nat) :
  (i < length t)%nat -> exists x, data_at t i = Ok x.
Proof.
  intros Hi. unfold data_at.
  destruct (nth_error t i) as [x|] eqn:E; [exists x; reflexivity|].
  apply nth_error_None in E. lia.
Qed.

Lemma data_at_out_of_range (t : tensor) (i : nat) :
  (length t <= i)%nat -> data_at t i = Raise IndexError.
Proof.
  intros Hi. unfold data_at.
  apply nth_error_None in Hi. rewrite Hi. reflexivity.
Qed.

Lemma data_at_raises (t : tensor) (i : nat) (e : exn) :
  data_at t i = Raise e -> e = IndexError.
Proof.
  unfold data_at. destruct (nth_error t i); congruence.
Qed.

Lemma torch_sort_desc_length (t : tensor) :
  length (torch_sort_desc t) = length t.
Proof.
  symmetry. apply Permutation_length, torch_sort_desc_perm.
Qed.

(** The tensor the two top-two scores index: sorted or as given. *)
Lemma indexed_length (t : tensor) (sorted : bool) :
  length (if negb sorted then torch_sort_desc t else t) = length t.
Proof.
  destruct sorted; simpl; [reflexivity|apply torch_sort_desc_length].
Qed.

(** [margin_confidence] and [ratio_confidence] raise [IndexError] on a
    tensor of fewer than two elements, whatever the flag and the content,
    and return a value on every longer tensor: no other error is possible,
    a zero top entry included. *)
Theorem top_two_scores_index_error (t : tensor) (sorted : bool) :
  ((length t < 2)%nat ->
   margin_confidence t sorted = Raise IndexError /\
   ratio_confidence t sorted = Raise IndexError) /\
  ((2 <= length t)%nat ->
   (exists x, margin_confidence t sorted = Ok x) /\
   (exists y, ratio_confidence t sorted = Ok y)).
Proof.
  unfold margin_confidence, ratio_confidence.
  remember (if negb sorted then torch_sort_desc t else t) as u eqn:Eu.
  assert (Hl : length u = length t) by (subst u; apply indexed_length).
  clear Eu. split; intros Hlen.
  - rewrite (data_at_out_of_range u 1) by lia.
    destruct (data_at u 0) as [x|e] eqn:E0; [split; reflexivity|].
    apply data_at_raises in E0. subst e. split; reflexivity.
  - destruct (data_at_in_range u 0) as [x0 E0]; [lia|].
    destruct (data_at_in_range u 1) as [x1 E1]; [lia|].
    rewrite E0, E1. simpl. split; eexists; reflexivity.
Qed.

Lemma top_two_scores_index_error_witness :
  (margin_confidence (of_reals [1]) false = Raise IndexError /\
   ratio_confidence (of_reals [1]) false = Raise IndexError) /\
  ((exists x, margin_confidence [NaN; Fin 0] true = Ok x) /\
   (exists y, ratio_confidence [NaN; Fin 0] true = Ok y)).
Proof.
  split.
  - apply (proj1 (top_two_scores_index_error (of_reals [1]) false)).
    simpl; lia.
  - apply (proj2 (top_two_scores_index_error [NaN; Fin 0] true)).
    simpl; lia.
Defined.

Lemma torch_max_nonempty (t : tensor) :
  t <> [] -> exists m, torch_max t = Ok m.
Proof.
  destruct t as [|x t]; [congruence|]. intros _.
  eexists. reflexivity.
Qed.

(** [least_confidence] on short tensors: an empty tensor gives
    [IndexError] with [sorted = true] and [RuntimeError] (from [torch.max])
    with [sorted = false]; a tensor of one element gives
    [ZeroDivisionError], from [num_labels / (num_labels - 1)], whatever the
    flag and the element; every longer tensor gives a value. *)
Theorem least_confidence_errors (t : tensor) (sorted : bool) :
  (t = [] ->
   least_confidence t sorted
   = Raise (if sorted then IndexError else RuntimeError)) /\
  (length t = 1%nat -> least_confidence t sorted = Raise ZeroDivisionError) /\
  ((2 <= length t)%nat -> exists x, least_confidence t sorted = Ok x).
Proof.
  split; [|split].
  - intros ->. destruct sorted; reflexivity.
  - intros Hlen. destruct t as [|x [|y t]]; try discriminate.
    destruct sorted; reflexivity.
  - intros Hlen. unfold least_confidence.
    assert (E : exists m,
      (if sorted then data_at t 0 else torch_max t) = Ok m).
    { destruct sorted.
      - apply data_at_in_range. lia.
      - apply torch_max_nonempty. intros ->. simpl in Hlen. lia. }
    destruct E as [m ->]. cbn [bind].
    unfold py_truediv, size0.
    destruct (Z.eqb_spec (Z.of_nat (length t) - 1) 0) as [E|_]; [lia|].
    eexists. reflexivity.
Qed.

Lemma least_confidence_errors_witness :
  least_confidence [] true = Raise IndexError /\
  least_confidence [] false = Raise RuntimeError /\
  least_confidence (of_reals [1]) false = Raise ZeroDivisionError /\
  (exists x, least_confidence [NaN; PInf] false = Ok x).
Proof.
  split; [|split; [|split]].
  - apply (proj1 (least_confidence_errors [] true)). reflexivity.
  - apply (proj1 (least_confidence_errors [] false)). reflexivity.
  - apply (proj1 (proj2 (least_confidence_errors (of_reals [1]) false))).
    reflexivity.
  - apply (proj2 (proj2 (least_confidence_errors [NaN; PInf] false))).
    simpl; lia.
Defined.

Lemma fdiv_by_zero_not_finite (x : float) : ~ finite (fdiv x (Fin 0)).
Proof.
  intros [r E]. destruct x as [a| | |]; simpl in E.
  - destruct (Req_dec_T 0 0) as [_|H]; [|apply H; reflexivity].
    unfold by_sign in E.
    destruct (Rlt_dec 0 a); [discriminate|].
    destruct (Rlt_dec a 0); discriminate.
  - destruct (Rlt_dec 0 0); discriminate.
  - destruct (Rlt_dec 0 0); discriminate.
  - discriminate.
Qed.

(** [entropy_score] on short tensors: an empty tensor gives [ValueError]
    (from [math.log2(0)]); a tensor of one element gives no error, but the
    division by [log2 1 = 0] never gives a finite number (it is an
    infinity or [NaN]). *)
Theorem entropy_score_short :
  entropy_score [] = Raise ValueError /\
  (forall x, exists y, entropy_score [x] = Ok y /\ ~ finite y).
Proof.
  split; [reflexivity|].
  intros x. unfold entropy_score, math_log2, size0. simpl length.
  simpl Z.leb. cbn [bind]. eexists. split; [reflexivity|].
  replace (log2 (IZR (Z.of_nat 1))) with 0.
  - apply fdiv_by_zero_not_finite.
  - unfold log2. simpl. rewrite ln_1. unfold Rdiv. lra.
Qed.

(** ** When the entropy score is a number *)

Lemma fadd_finite_inv (x y : float) :
  finite (fadd x y) -> finite x /\ finite y.
Proof.
  intros [r E]. destruct x, y; simpl in E; try discriminate.
  split; eexists; reflexivity.
Qed.

Lemma fold_fadd_finite_inv (t : tensor) :
  forall a, finite (fold_left fadd t a) -> finite a /\ Forall finite t.
Proof.
  induction t as [|x t IH]; intros a H; simpl in H.
  - split; [exact H|constructor].
  - destruct (IH _ H) as [Ha Ht].
    destruct (fadd_finite_inv _ _ Ha) as [Ha' Hx].
    split; [exact Ha'|]. constructor; assumption.
Qed.

(** The term [p * log2 p] is finite only for a finite [p > 0]. *)
Lemma log_prob_finite_inv (x : float) :
  finite (fmul x (flog2 x)) -> positive_finite x.
Proof.
  intros [r E]. destruct x as [p| | |]; simpl in E; try discriminate.
  - unfold by_sign in E. destruct (Rlt_dec 0 p) as [Hp|Hp].
    + exists p. split; [reflexivity|exact Hp].
    + destruct (Rlt_dec p 0) as [Hn|Hn]; simpl in E; [discriminate|].
      unfold by_sign in E.
      destruct (Rlt_dec 0 p); [contradiction|].
      destruct (Rlt_dec p 0); [contradiction|discriminate].
Qed.

Lemma fdiv_finite_inv (x : float) (d : R) :
  finite (fdiv x (Fin d)) -> finite x.
Proof.
  intros [r E]. destruct x as [a| | |]; simpl in E.
  - eexists; reflexivity.
  - destruct (Rlt_dec d 0); discriminate.
  - destruct (Rlt_dec d 0); discriminate.
  - discriminate.
Qed.

Lemma positive_finite_of_reals (t : tensor) :
  Forall positive_finite t ->
  exists v, t = of_reals v /\ Forall (fun p => 0 < p) v.
Proof.
  induction 1 as [|x t [p [-> Hp]] Ht [v [-> Hv]]].
  - exists []. split; [reflexivity|constructor].
  - exists (p :: v). split; [reflexivity|]. constructor; assumption.
Qed.

(** On a tensor of at least two elements: if [entropy_score] returns a
    finite number, every element is finite and strictly positive (a zero,
    a negative number, an infinity or a [NaN] anywhere makes the result an
    infinity or [NaN]); and it does return a finite number when every
    element is a probability other than zero, a finite [p] with
    [0 < p <= 1]. *)
Theorem entropy_score_finite (t : tensor) :
  (2 <= length t)%nat ->
  ((exists y, entropy_score t = Ok y /\ finite y) ->
   Forall positive_finite t) /\
  (Forall positive_probability t ->
   exists y, entropy_score t = Ok y /\ finite y).
Proof.
  intros Hlen. split.
  - intros [y [E Hy]]. unfold entropy_score in E.
    destruct (math_log2 (size0 t)) as [d|e] eqn:Ed; cbn [bind] in E;
      [|discriminate].
    injection E as <-.
    unfold math_log2 in Ed. destruct (Z.leb (size0 t) 0); [discriminate|].
    injection Ed as <-.
    apply fdiv_finite_inv in Hy.
    assert (Hsum : finite
      (torch_sum (map (fun p => fmul p (flog2 p)) t))).
    { destruct Hy as [r Er].
      destruct (torch_sum (map (fun p => fmul p (flog2 p)) t));
        simpl in Er; try discriminate.
      eexists; reflexivity. }
    apply fold_fadd_finite_inv in Hsum. destruct Hsum as [_ Hall].
    rewrite Forall_map in Hall.
    eapply Forall_impl; [|exact Hall].
    intros x Hx. apply log_prob_finite_inv, Hx.
  - intros Hall.
    assert (Hpos : Forall positive_finite t).
    { eapply Forall_impl; [|exact Hall].
      intros x [q [-> [Hq _]]]. exists q. split; [reflexivity|exact Hq]. }
    destruct (positive_finite_of_reals _ Hpos) as [v [-> Hv]].
    unfold of_reals in Hlen. rewrite length_map in Hlen.
    rewrite (entropy_score_positive v Hv Hlen).
    eexists. split; [reflexivity|]. eexists; reflexivity.
Qed.

Lemma entropy_score_finite_witness :
  ((exists y, entropy_score (of_reals [/ 2; / 2]) = Ok y /\ finite y) ->
   Forall positive_finite (of_reals [/ 2; / 2])) /\
  (exists y, entropy_score (of_reals [/ 2; / 2]) = Ok y /\ finite y).
Proof.
  destruct (entropy_score_finite (of_reals [/ 2; / 2])) as [H1 H2].
  - simpl; lia.
  - split; [exact H1|]. apply H2.
    repeat constructor; eexists; (split; [reflexivity|lra]).
Defined.

(** ** The order of the labels *)

Lemma fmax_cases (x y : float) :
  (fmax x y = x \/ fmax x y = y) /\ fle x (fmax x y) /\ fle y (fmax x y).
Proof.
  unfold fmax, fle. destruct (fleb x y) eqn:E.
  - split; [right; reflexivity|]. split; [exact E|apply fleb_refl].
  - split; [left; reflexivity|]. split; [apply fleb_refl|].
    apply fleb_total, E.
Qed.

(** [torch_max] returns an element of the tensor that is above all. *)
Lemma fold_fmax_greatest (t : tensor) :
  forall a, In (fold_left fmax t a) (a :: t) /\
            Forall (fun x => fle x (fold_left fmax t a)) (a :: t).
Proof.
  induction t as [|x t IH]; intros a; simpl.
  - split; [left; reflexivity|].
    constructor; [apply fleb_refl|constructor].
  - destruct (IH (fmax a x)) as [Hin Hall].
    inversion Hall as [|? ? Hm Ht]; subst.
    destruct (fmax_cases a x) as [Hc [Ha Hx]].
    split.
    + simpl in Hin. destruct Hin as [Hin|Hin]; [|auto].
      rewrite <- Hin. destruct Hc as [-> | ->]; auto.
    + constructor; [eapply fle_trans; eassumption|].
      constructor; [eapply fle_trans; eassumption|exact Ht].
Qed.

Lemma torch_max_greatest (t : tensor) (m : float) :
  torch_max t = Ok m <-> In m t /\ Forall (fun x => fle x m) t.
Proof.
  destruct t as [|a t]; simpl.
  - split; [discriminate|intros [[] _]].
  - pose proof (fold_fmax_greatest t a) as [Hin Hall]. split.
    + intros E. injection E as <-. split; assumption.
    + intros [Hin' Hall']. f_equal.
      rewrite Forall_forall in Hall, Hall'.
      apply fle_antisym; [apply Hall', Hin|apply Hall, Hin'].
Qed.

Lemma torch_max_perm (t t' : tensor) :
  Permutation t t' -> torch_max t = torch_max t'.
Proof.
  intros HP. destruct t as [|a t].
  - apply Permutation_nil in HP. subst. reflexivity.
  - destruct (torch_max_nonempty (a :: t)) as [m E]; [discriminate|].
    rewrite E. symmetry. apply torch_max_greatest.
    apply torch_max_greatest in E. destruct E as [Hin Hall]. split.
    + eapply Permutation_in; eassumption.
    + eapply Permutation_Forall; eassumption.
Qed.

Lemma torch_sort_desc_perm_eq (t t' : tensor) :
  Permutation t t' -> torch_sort_desc t = torch_sort_desc t'.
Proof.
  intros HP. apply torch_sort_desc_of_sorted.
  - eapply perm_trans; [exact HP|apply torch_sort_desc_perm].
  - apply torch_sort_desc_sorted.
Qed.

(** With [sorted = false] the three scores do not depend on the order of
    the labels: a rearranged tensor gives the same result, errors
    included. *)
Theorem scores_permutation_invariant (t t' : tensor) :
  Permutation t t' ->
  margin_confidence t false = margin_confidence t' false /\
  ratio_confidence t false = ratio_confidence t' false /\
  least_confidence t false = least_confidence t' false.
Proof.
  intros HP.
  unfold margin_confidence, ratio_confidence, least_confidence, size0.
  simpl negb. cbv iota.
  rewrite (torch_sort_desc_perm_eq _ _ HP), (torch_max_perm _ _ HP),
    (Permutation_length HP).
  repeat split; reflexivity.
Qed.

Lemma scores_permutation_invariant_witness :
  margin_confidence (of_reals [/ 4; / 2; / 4]) false
  = margin_confidence (of_reals [/ 2; / 4; / 4]) false /\
  ratio_confidence (of_reals [/ 4; / 2; / 4]) false
  = ratio_confidence (of_reals [/ 2; / 4; / 4]) false /\
  least_confidence (of_reals [/ 4; / 2; / 4]) false
  = least_confidence (of_reals [/ 2; / 4; / 4]) false.
Proof.
  apply (scores_permutation_invariant
           (of_reals [/ 4; / 2; / 4]) (of_reals [/ 2; / 4; / 4])).
  apply perm_swap.
Defined.

(** When [dist_sorted] is the descending rearrangement of [dist],
    [ratio_confidence dist_sorted true] is [ratio_confidence dist false],
    and so it is for [least_confidence] unless the tensor is empty: there
    the two flags raise different errors. *)
Theorem ratio_least_presorted (dist dist_sorted : tensor) :
  Permutation dist dist_sorted -> StronglySorted fge dist_sorted ->
  ratio_confidence dist_sorted true = ratio_confidence dist false /\
  (dist <> [] ->
   least_confidence dist_sorted true = least_confidence dist false) /\
  least_confidence [] true <> least_confidence [] false.
Proof.
  intros HP Hs. split; [|split].
  - unfold ratio_confidence. simpl negb. cbv iota.
    rewrite (torch_sort_desc_of_sorted _ _ HP Hs). reflexivity.
  - intros Hne. unfold least_confidence, size0.
    rewrite (torch_max_perm _ _ HP), (Permutation_length HP).
    destruct dist_sorted as [|a s].
    + apply Permutation_sym, Permutation_nil in HP. contradiction.
    + replace (torch_max (a :: s)) with (data_at (a :: s) 0); [reflexivity|].
      symmetry. apply torch_max_greatest. split; [left; reflexivity|].
      inversion Hs as [|? ? _ Ha]; subst.
      constructor; [apply fleb_refl|exact Ha].
  - discriminate.
Qed.

Lemma ratio_least_presorted_witness :
  ratio_confidence (of_reals [/ 2; / 4; / 4]) true
  = ratio_confidence (of_reals [/ 4; / 2; / 4]) false /\
  least_confidence (of_reals [/ 2; / 4; / 4]) true
  = least_confidence (of_reals [/ 4; / 2; / 4]) false.
Proof.
  destruct (ratio_least_presorted
              (of_reals [/ 4; / 2; / 4]) (of_reals [/ 2; / 4; / 4]))
    as [Hr [Hl _]].
  - apply perm_swap.
  - apply sorted_desc_of_reals. repeat constructor; lra.
  - split; [exact Hr|]. apply Hl. discriminate.
Defined.

(** ** More on softmax *)

Lemma nth_map_in_range (f : R -> R) (v : list R) (i : nat) :
  (i < length v)%nat -> nth i (map f v) 0 = f (nth i v 0).
Proof.
  intros Hi. rewrite (nth_indep _ 0 (f 0)) by (rewrite length_map; exact Hi).
  apply map_nth.
Qed.

Lemma Rpower_increasing_iff (base x y : R) :
  1 < base -> (x <= y <-> Rpower base x <= Rpower base y).
Proof.
  intros Hb. split; intros H.
  - destruct H as [H | ->]; [|lra].
    apply Rlt_le, Rpower_lt; assumption.
  - destruct (Rle_dec x y) as [|Hn]; [assumption|]. exfalso.
    assert (Hlt : y < x) by lra.
    pose proof (Rpower_lt base y x Hb Hlt). lra.
Qed.

(** With a base above 1 (the default [e] is one) softmax keeps the ranking
    of its inputs: one output is at most another exactly when the inputs
    are, so the largest score gets the largest probability and equal
    scores get equal probabilities. *)
Theorem softmax_order_preserving (v : list R) (base : R) :
  1 < base ->
  exists p,
    softmax (of_reals v) base = of_reals p /\
    length p = length v /\
    forall i j, (i < length v)%nat -> (j < length v)%nat ->
                (nth i v 0 <= nth j v 0 <-> nth i p 0 <= nth j p 0).
Proof.
  intros Hb. destruct v as [|a v].
  - exists []. split; [reflexivity|]. split; [reflexivity|].
    intros i j Hi. simpl in Hi. lia.
  - assert (Hne : a :: v <> []) by discriminate.
    set (w := a :: v) in *.
    pose proof (Rsum_exps_pos base w Hne) as Hs.
    exists (map (fun x => Rpower base x / Rsum (map (Rpower base) w)) w).
    split; [apply softmax_of_reals; [lra|exact Hne]|].
    split; [apply length_map|].
    intros i j Hi Hj. rewrite !nth_map_in_range by assumption.
    rewrite (Rpower_increasing_iff base _ _ Hb).
    assert (Hinv : 0 < / Rsum (map (Rpower base) w))
      by (apply Rinv_0_lt_compat; exact Hs).
    unfold Rdiv. split; intros H.
    + apply Rmult_le_compat_r; lra.
    + apply (Rmult_le_reg_r (/ Rsum (map (Rpower base) w))); assumption.
Qed.

Lemma default_base_above_1 : 1 < default_base.
Proof.
  unfold default_base. pose proof (exp_ineq1 1). lra.
Qed.

Lemma softmax_order_preserving_witness :
  exists p,
    softmax (of_reals [1; 4; 2; 3]) default_base = of_reals p /\
    length p = 4%nat /\
    forall i j, (i < 4)%nat -> (j < 4)%nat ->
                (nth i [1; 4; 2; 3] 0 <= nth j [1; 4; 2; 3] 0
                 <-> nth i p 0 <= nth j p 0).
Proof.
  apply (softmax_order_preserving [1; 4; 2; 3] default_base).
  apply default_base_above_1.
Defined.

Lemma fpow_base_1 (x : float) : fpow 1 x = Fin 1.
Proof.
  destruct x as [r| | |]; simpl.
  - destruct (Req_dec_T r 0); [reflexivity|].
    destruct (Rlt_dec 0 1) as [_|H]; [|exfalso; lra].
    f_equal. unfold Rpower. rewrite ln_1, Rmult_0_r. apply exp_0.
  - rewrite Rabs_R1. destruct (Rlt_dec 1 1); [exfalso; lra|].
    destruct (Req_dec_T 1 1) as [_|H]; [reflexivity|exfalso; lra].
  - rewrite Rabs_R1. destruct (Rlt_dec 1 1); [exfalso; lra|].
    destruct (Req_dec_T 1 1) as [_|H]; [reflexivity|exfalso; lra].
  - destruct (Req_dec_T 1 1) as [_|H]; [reflexivity|exfalso; lra].
Qed.

Lemma map_constant {A B : Type} (f : A -> B) (b : B) (l : list A) :
  (forall x, In x l -> f x = b) -> map f l = repeat b (length l).
Proof.
  induction l as [|x l IH]; intros H; simpl; [reflexivity|].
  rewrite H by (left; reflexivity). f_equal.
  apply IH. intros y Hy. apply H. right. exact Hy.
Qed.

(** Softmax gives the uniform distribution [1/N, ..., 1/N] when the base
    is [1], on every non-empty tensor whatever it holds, and when all [N]
    inputs are one finite value, for every positive base. *)
Theorem softmax_uniform :
  (forall t : tensor,
      t <> [] -> softmax t 1 = of_reals (uniform (length t))) /\
  (forall (c base : R) (n : nat),
      0 < base -> (1 <= n)%nat ->
      softmax (of_reals (repeat c n)) base = of_reals (uniform n)).
Proof.
  split.
  - intros t Hne.
    assert (HN : 0 < INR (length t)).
    { apply lt_0_INR. destruct t; [congruence|simpl; lia]. }
    unfold softmax.
    rewrite (map_constant (fpow 1) (Fin 1))
      by (intros; apply fpow_base_1).
    replace (repeat (Fin 1) (length t))
      with (of_reals (repeat 1 (length t)))
      by (unfold of_reals; apply map_repeat).
    rewrite torch_sum_of_reals, Rsum_repeat.
    unfold of_reals, uniform. rewrite map_map, !map_repeat.
    rewrite fdiv_Fin by lra. do 2 f_equal. field. lra.
  - intros c base n Hb Hn.
    assert (HN : 0 < INR n) by (apply lt_0_INR; lia).
    assert (Hne : repeat c n <> []) by (destruct n; [lia|discriminate]).
    rewrite (softmax_of_reals base _ Hb Hne).
    rewrite !map_repeat, Rsum_repeat. unfold uniform. do 2 f_equal.
    pose proof (Rpower_pos base c). field. lra.
Qed.

Lemma softmax_uniform_witness :
  softmax [NaN; PInf; Fin 3] 1 = of_reals (uniform 3) /\
  softmax (of_reals (repeat 5 4)) default_base = of_reals (uniform 4).
Proof.
  split.
  - apply (proj1 softmax_uniform [NaN; PInf; Fin 3]). discriminate.
  - apply (proj2 softmax_uniform 5 default_base 4%nat).
    + apply default_base_pos.
    + lia.
Defined.

Lemma fdiv_NaN_r (x : float) : fdiv x NaN = NaN.
Proof. destruct x; reflexivity. Qed.

(** One [NaN] among the inputs makes every output of softmax [NaN] (for
    every base but [1]): the [NaN] reaches the sum that each exponential
    is divided by. *)
Theorem softmax_nan_input (t : tensor) (base : R) :
  In NaN t -> base <> 1 -> softmax t base = repeat NaN (length t).
Proof.
  intros Hin Hb. unfold softmax.
  assert (Hnan : In NaN (map (fpow base) t)).
  { replace NaN with (fpow base NaN) at 1.
    - apply in_map, Hin.
    - simpl. destruct (Req_dec_T base 1); [contradiction|reflexivity]. }
  unfold torch_sum. rewrite (fold_fadd_In_NaN _ _ Hnan).
  rewrite (map_constant (fun e => fdiv e NaN) NaN)
    by (intros; apply fdiv_NaN_r).
  rewrite length_map. reflexivity.
Qed.

Lemma softmax_nan_input_witness :
  softmax [Fin 1; NaN; Fin 2] default_base = [NaN; NaN; NaN].
Proof.
  apply (softmax_nan_input [Fin 1; NaN; Fin 2] default_base).
  - simpl. auto.
  - pose proof default_base_above_1. lra.
Defined.

(** ** Softmax followed by a score *)

Lemma softmax_positive_distribution (v : list R) (base : R) :
  0 < base -> v <> [] ->
  exists p,
    softmax (of_reals v) base = of_reals p /\ length p = length v /\
    distribution p /\ Forall (fun q => 0 < q) p.
Proof.
  intros Hb Hv.
  pose proof (Rsum_exps_pos base v Hv) as Hs.
  exists (map (fun x => Rpower base x / Rsum (map (Rpower base) v)) v).
  assert (Hpos : Forall (fun q => 0 < q)
            (map (fun x => Rpower base x / Rsum (map (Rpower base) v)) v)).
  { apply Forall_forall. intros q Hq.
    apply in_map_iff in Hq. destruct Hq as [x [<- _]].
    apply Rdiv_lt_0_compat; [apply Rpower_pos|exact Hs]. }
  split; [apply softmax_of_reals; assumption|].
  split; [apply length_map|]. split; [split|exact Hpos].
  - eapply Forall_impl; [|exact Hpos]. simpl; intros; lra.
  - rewrite Rsum_map_div. apply Rinv_r. lra.
Qed.

(** The scores of a strictly positive distribution. *)
Lemma scores_of_positive_distribution (p : list R) :
  distribution p -> Forall (fun q => 0 < q) p -> (2 <= length p)%nat ->
  (exists m, margin_confidence (of_reals p) false = Ok (Fin m) /\
             0 < m <= 1) /\
  (exists r, ratio_confidence (of_reals p) false = Ok (Fin r) /\
             0 < r <= 1) /\
  (exists l, least_confidence (of_reals p) false = Ok (Fin l) /\
             0 < l <= 1) /\
  (exists e, entropy_score (of_reals p) = Ok (Fin e) /\ 0 <= e <= 1).
Proof.
  intros Hd Hpos Hlen.
  destruct (torch_sort_desc_top_two p Hlen)
    as [p1 [p2 [rest [_ [HP [Hp Hr]]]]]].
  assert (Ht : top_two p p1 p2) by (exists rest; auto).
  destruct (distribution_top_two _ _ _ Hd Ht) as [_ [H21 [Hsum H1]]].
  assert (H2 : 0 < p2).
  { eapply Permutation_Forall in Hpos; [|exact HP].
    inversion Hpos as [|? ? _ Hp']; subst. inversion Hp'; subst.
    assumption. }
  pose proof (top_two_maximum _ _ _ Ht) as Hm.
  split; [|split; [|split]].
  - exists (1 - (p1 - p2)). split; [|lra].
    apply margin_confidence_top_two, Ht.
  - exists (p2 / p1). split.
    + rewrite (ratio_confidence_top_two _ _ _ Ht). f_equal.
      apply fdiv_Fin. lra.
    + split; [apply Rdiv_lt_0_compat; assumption|].
      apply (Rmult_le_reg_r p1); [exact H1|].
      unfold Rdiv. rewrite Rmult_assoc, Rinv_l by lra. lra.
  - exists ((1 - p1) * (INR (length p) / (INR (length p) - 1))). split.
    + apply least_confidence_maximum; assumption.
    + destruct (distribution_maximum _ _ Hd Hm) as [Hm1 HmN].
      destruct (least_confidence_range _ _ Hlen Hm1 HmN) as [_ Hle].
      split; [|exact Hle].
      assert (HN : 2 <= INR (length p))
        by (apply le_INR in Hlen; simpl in Hlen; lra).
      apply Rmult_lt_0_compat; [lra|].
      apply Rdiv_lt_0_compat; lra.
  - exists (entropy p / log2 (INR (length p))). split.
    + apply entropy_score_positive; assumption.
    + apply entropy_range; assumption.
Qed.

(** Softmax and the scores compose: on the softmax of [N >= 2] finite
    inputs, for every positive base, each of the four scores is a finite
    number of its range; [ratio_confidence] is strictly positive there, and
    so are [margin_confidence] and [least_confidence]; [entropy_score] is
    never [NaN], since no output of softmax is zero. *)
Theorem scores_of_softmax (v : list R) (base : R) :
  0 < base -> (2 <= length v)%nat ->
  (exists m, margin_confidence (softmax (of_reals v) base) false
             = Ok (Fin m) /\ 0 < m <= 1) /\
  (exists r, ratio_confidence (softmax (of_reals v) base) false
             = Ok (Fin r) /\ 0 < r <= 1) /\
  (exists l, least_confidence (softmax (of_reals v) base) false
             = Ok (Fin l) /\ 0 < l <= 1) /\
  (exists e, entropy_score (softmax (of_reals v) base)
             = Ok (Fin e) /\ 0 <= e <= 1).
Proof.
  intros Hb Hlen.
  assert (Hv : v <> []) by (intros ->; simpl in Hlen; lia).
  destruct (softmax_positive_distribution v base Hb Hv)
    as [p [-> [Hl [Hd Hpos]]]].
  apply scores_of_positive_distribution; [assumption..|lia].
Qed.

Lemma scores_of_softmax_witness :
  exists e,
    entropy_score (softmax (of_reals [1; 4; 2; 3]) default_base)
    = Ok (Fin e) /\ 0 <= e <= 1.
Proof.
  apply (scores_of_softmax [1; 4; 2; 3] default_base).
  - apply default_base_pos.
  - simpl; lia.
Defined.

(** ** Two labels *)

(** On two labels whose probabilities sum to one, margin of confidence
    and least confidence are the same number, [2 * (1 - p_max)]. *)
Theorem binary_margin_is_least (a b : R) :
  a + b = 1 ->
  margin_confidence (of_reals [a; b]) false
  = least_confidence (of_reals [a; b]) false /\
  exists m, maximum [a; b] m /\
            least_confidence (of_reals [a; b]) false
            = Ok (Fin (2 * (1 - m))).
Proof.
  intros Hab.
  destruct (torch_sort_desc_top_two [a; b] (le_n 2))
    as [p1 [p2 [rest [_ [HP [Hp Hr]]]]]].
  assert (Ht : top_two [a; b] p1 p2) by (exists rest; auto).
  assert (rest = []).
  { apply Permutation_length in HP. simpl in HP.
    destruct rest; [reflexivity|simpl in HP; lia]. }
  subst rest. pose proof (Rsum_perm _ _ HP) as Hs. simpl in Hs.
  pose proof (top_two_maximum _ _ _ Ht) as Hm.
  rewrite (margin_confidence_top_two _ _ _ Ht).
  rewrite (least_confidence_maximum [a; b] p1 (le_n 2) Hm).
  simpl. split.
  - do 2 f_equal. field_simplify; lra.
  - exists p1. split; [exact Hm|]. do 2 f_equal. field_simplify; lra.
Qed.

Lemma binary_margin_is_least_witness :
  margin_confidence (of_reals [/ 4; 3 / 4]) false
  = least_confidence (of_reals [/ 4; 3 / 4]) false.
Proof.
  apply (binary_margin_is_least (/ 4) (3 / 4)). lra.
Defined.

(** ** Where the scores reach 0 and 1 *)

Lemma Rsum_all_max (v : list R) (m : R) :
  Forall (fun x => x <= m) v -> Rsum v = INR (length v) * m ->
  v = repeat m (length v).
Proof.
  induction 1 as [|x l Hx Hl IH]; intros Hs; [reflexivity|].
  change (length (x :: l)) with (S (length l)) in *.
  rewrite S_INR in Hs. simpl in Hs.
  pose proof (Rsum_le_max _ _ Hl) as Hle.
  assert (x = m) by lra. subst x.
  simpl. f_equal. apply IH. lra.
Qed.

Lemma maximum_1_iff (v : list R) (m : R) :
  distribution v -> maximum v m -> (m = 1 <-> In 1 v).
Proof.
  intros Hd Hm. split.
  - intros <-. apply Hm.
  - intros Hin. destruct Hm as [Hi Hall].
    rewrite Forall_forall in Hall. apply Hall in Hin.
    pose proof (distribution_le_1 _ _ Hd Hi). lra.
Qed.

(** On a probability distribution of length [N >= 2],
    [least_confidence] is [0] exactly when some entry is [1] (all the
    mass on one label), and [1] exactly when the distribution is the
    uniform one. *)
Theorem least_confidence_extremes (v : list R) :
  distribution v -> (2 <= length v)%nat ->
  (least_confidence (of_reals v) false = Ok (Fin 0) <-> In 1 v) /\
  (least_confidence (of_reals v) false = Ok (Fin 1)
   <-> v = uniform (length v)).
Proof.
  intros Hd Hlen.
  destruct (torch_max_of_reals v) as [m [_ Hm]].
  { intros ->. simpl in Hlen. lia. }
  rewrite (least_confidence_maximum v m Hlen Hm).
  destruct (distribution_maximum _ _ Hd Hm) as [Hm1 HmN].
  assert (HN : 2 <= INR (length v))
    by (apply le_INR in Hlen; simpl in Hlen; lra).
  set (N := INR (length v)) in *.
  assert (Hq : 0 < N / (N - 1)) by (apply Rdiv_lt_0_compat; lra).
  split.
  - rewrite <- (maximum_1_iff v m Hd Hm). split.
    + intros E. injection E as E.
      apply Rmult_integral in E. destruct E; lra.
    + intros ->. do 2 f_equal. lra.
  - split.
    + intros E. injection E as E.
      assert (Em : N * m = 1).
      { assert (E' : (1 - m) * (N / (N - 1)) * (N - 1) = 1 * (N - 1))
          by (rewrite E; reflexivity).
        unfold Rdiv in E'.
        rewrite !Rmult_assoc, Rinv_l, Rmult_1_r in E' by lra. lra. }
      unfold uniform.
      replace (/ INR (length v)) with m.
      * apply Rsum_all_max; [apply Hm|].
        destruct Hd as [_ ->]. fold N. lra.
      * fold N. apply (Rmult_eq_reg_l N); [|lra].
        rewrite Rinv_r by lra. exact Em.
    + intros Eu.
      assert (Em : m = / N).
      { apply (maximum_unique v); [exact Hm|].
        rewrite Eu at 1. apply uniform_maximum. lia. }
      rewrite Em. do 2 f_equal. field. lra.
Qed.

Lemma least_confidence_extremes_witness :
  (least_confidence (of_reals [0; 1; 0]) false = Ok (Fin 0)
   <-> In 1 [0; 1; 0]) /\
  (least_confidence (of_reals [0; 1; 0]) false = Ok (Fin 1)
   <-> [0; 1; 0] = uniform 3).
Proof.
  apply (least_confidence_extremes [0; 1; 0]).
  - split; [repeat constructor; lra | simpl; lra].
  - simpl; lia.
Defined.

(** On a probability distribution of length at least 2,
    [margin_confidence] is [0] exactly when some entry is [1], and [1]
    exactly when the two largest entries are equal. *)
Theorem margin_confidence_extremes (v : list R) :
  distribution v -> (2 <= length v)%nat ->
  (margin_confidence (of_reals v) false = Ok (Fin 0) <-> In 1 v) /\
  (margin_confidence (of_reals v) false = Ok (Fin 1)
   <-> exists p, top_two v p p).
Proof.
  intros Hd Hlen.
  destruct (torch_sort_desc_top_two v Hlen)
    as [p1 [p2 [rest [_ [HP [Hp Hr]]]]]].
  assert (Ht : top_two v p1 p2) by (exists rest; auto).
  destruct (distribution_top_two _ _ _ Hd Ht) as [H0 [_ [Hsum _]]].
  pose proof (top_two_maximum _ _ _ Ht) as Hm.
  rewrite (margin_confidence_top_two _ _ _ Ht).
  split.
  - rewrite <- (maximum_1_iff v p1 Hd Hm). split.
    + intros E. injection E as E. lra.
    + intros E1. do 2 f_equal. lra.
  - split.
    + intros E. injection E as E.
      assert (p2 = p1) by lra. subst p2. exists p1. exact Ht.
    + intros [p Hpp].
      destruct (top_two_unique _ _ _ _ _ Ht Hpp) as [-> ->].
      do 2 f_equal. lra.
Qed.

Lemma margin_confidence_extremes_witness :
  (margin_confidence (of_reals [/ 2; 0; / 2]) false = Ok (Fin 0)
   <-> In 1 [/ 2; 0; / 2]) /\
  (margin_confidence (of_reals [/ 2; 0; / 2]) false = Ok (Fin 1)
   <-> exists p, top_two [/ 2; 0; / 2] p p).
Proof.
  apply (margin_confidence_extremes [/ 2; 0; / 2]).
  - split; [repeat constructor; lra | simpl; lra].
  - simpl; lia.
Defined.

(** ** The flag is taken on trust *)




(** ** Unnormalised input *)

Lemma top_two_scale (v : list R) (c p1 p2 : R) :
  0 < c -> top_two v p1 p2 -> top_two (map (Rmult c) v) (c * p1) (c * p2).
Proof.
  intros Hc [rest [HP [Hp Hr]]]. exists (map (Rmult c) rest).
  split; [|split].
  - apply (Permutation_map (Rmult c)) in HP. exact HP.
  - apply Rmult_le_compat_l; lra.
  - rewrite Forall_map. eapply Forall_impl; [|exact Hr].
    simpl. intros x Hx. apply Rmult_le_compat_l; lra.
Qed.

Lemma fdiv_scale (c a b : R) :
  0 < c -> fdiv (Fin (c * a)) (Fin (c * b)) = fdiv (Fin a) (Fin b).
Proof.
  intros Hc. simpl.
  destruct (Req_dec_T (c * b) 0) as [E|E], (Req_dec_T b 0) as [E'|E'].
  - unfold by_sign.
    destruct (Rlt_dec 0 (c * a)), (Rlt_dec 0 a); try reflexivity;
      try (exfalso; nra).
    destruct (Rlt_dec (c * a) 0), (Rlt_dec a 0); try reflexivity;
      exfalso; nra.
  - exfalso. apply Rmult_integral in E. destruct E; lra.
  - exfalso. subst b. apply E. lra.
  - f_equal. field. split; lra.
Qed.

(** [ratio_confidence] does not need normalised input: multiplying every
    entry by one positive constant leaves the result unchanged, errors
    and the non-finite results included. *)
Theorem ratio_confidence_scale_invariant (v : list R) (c : R) :
  0 < c ->
  ratio_confidence (of_reals (map (Rmult c) v)) false
  = ratio_confidence (of_reals v) false.
Proof.
  intros Hc. destruct v as [|x [|y v]]; [reflexivity|reflexivity|].
  assert (Hlen : (2 <= length (x :: y :: v))%nat) by (simpl; lia).
  destruct (torch_sort_desc_top_two _ Hlen)
    as [p1 [p2 [rest [_ [HP [Hp Hr]]]]]].
  assert (Ht : top_two (x :: y :: v) p1 p2) by (exists rest; auto).
  rewrite (ratio_confidence_top_two _ _ _ (top_two_scale _ c _ _ Hc Ht)).
  rewrite (ratio_confidence_top_two _ _ _ Ht).
  f_equal. apply fdiv_scale, Hc.
Qed.

Lemma ratio_confidence_scale_invariant_witness :
  ratio_confidence (of_reals (map (Rmult 10) [/ 4; / 2; / 4])) false
  = ratio_confidence (of_reals [/ 4; / 2; / 4]) false.
Proof.
  apply (ratio_confidence_scale_invariant [/ 4; / 2; / 4] 10). lra.
Defined.

(** ** Sums and the order of the labels *)

Lemma fadd_swap (a x y : float) :
  fadd (fadd a x) y = fadd (fadd a y) x.
Proof.
  destruct a, x, y; simpl; try reflexivity. f_equal. lra.
Qed.

Lemma fold_fadd_perm (l l' : tensor) :
  Permutation l l' -> forall a, fold_left fadd l a = fold_left fadd l' a.
Proof.
  induction 1 as [|x l l' _ IH|x y l|l l' l'' _ IH1 _ IH2];
    intros a; simpl.
  - reflexivity.
  - apply IH.
  - rewrite fadd_swap. reflexivity.
  - rewrite IH1. apply IH2.
Qed.

Lemma torch_sum_perm (t t' : tensor) :
  Permutation t t' -> torch_sum t = torch_sum t'.
Proof.
  intros HP. apply fold_fadd_perm, HP.
Qed.

Lemma rearrange_identity (t : tensor) :
  rearrange (seq 0 (length t)) t = t.
Proof.
  unfold rearrange. induction t as [|x t IH]; [reflexivity|].
  simpl length. cbn [seq map nth]. f_equal.
  rewrite <- seq_shift, map_map. exact IH.
Qed.

Lemma rearrange_perm (idx : list nat) (t : tensor) :
  Permutation idx (seq 0 (length t)) -> Permutation (rearrange idx t) t.
Proof.
  intros HP. rewrite <- (rearrange_identity t) at 2.
  unfold rearrange. apply Permutation_map, HP.
Qed.

Lemma nth_map_float (f : float -> float) (t : tensor) (i : nat) :
  (i < length t)%nat -> nth i (map f t) NaN = f (nth i t NaN).
Proof.
  intros Hi.
  rewrite (nth_indep _ NaN (f NaN)) by (rewrite length_map; exact Hi).
  apply map_nth.
Qed.

(** [entropy_score] does not depend on the order of the labels, and
    softmax commutes with rearranging them: for an order [idx] of the
    positions of [t], the softmax of the rearranged tensor is the softmax
    of [t] rearranged in the same way.  The sums are over all elements,
    and a sum of exact values (infinities and [NaN] included) does not
    depend on the order of its terms. *)
Theorem entropy_softmax_permutation
  (t : tensor) (idx : list nat) (base : R) :
  Permutation idx (seq 0 (length t)) ->
  entropy_score (rearrange idx t) = entropy_score t /\
  softmax (rearrange idx t) base = rearrange idx (softmax t base) /\
  (forall t', Permutation t t' -> entropy_score t = entropy_score t').
Proof.
  intros Hidx.
  assert (Hent : forall u u', Permutation u u' ->
                              entropy_score u = entropy_score u').
  { intros u u' HP. unfold entropy_score, size0.
    rewrite (torch_sum_perm _ _
               (Permutation_map (fun p => fmul p (flog2 p)) HP)).
    rewrite (Permutation_length HP). reflexivity. }
  pose proof (rearrange_perm idx t Hidx) as HP.
  split; [apply Hent, HP|]. split; [|apply Hent].
  unfold softmax.
  rewrite (torch_sum_perm _ _ (Permutation_map (fpow base) HP)).
  unfold rearrange. rewrite !map_map.
  apply map_ext_in. intros i Hi.
  assert (Hlt : (i < length t)%nat).
  { eapply Permutation_in in Hi; [|exact Hidx].
    apply in_seq in Hi. lia. }
  rewrite <- (map_map (fpow base)
                (fun e => fdiv e (torch_sum (map (fpow base) t)))).
  rewrite nth_map_float by (rewrite length_map; exact Hlt).
  rewrite nth_map_float by exact Hlt. reflexivity.
Qed.

Lemma entropy_softmax_permutation_witness :
  entropy_score (rearrange [1; 0; 2]%nat (of_reals [/ 4; / 2; / 4]))
  = entropy_score (of_reals [/ 4; / 2; / 4]) /\
  softmax (rearrange [1; 0; 2]%nat (of_reals [/ 4; / 2; / 4])) default_base
  = rearrange [1; 0; 2]%nat (softmax (of_reals [/ 4; / 2; / 4]) default_base).
Proof.
  destruct (entropy_softmax_permutation
              (of_reals [/ 4; / 2; / 4]) [1; 0; 2]%nat default_base)
    as [H1 [H2 _]].
  - apply perm_swap.
  - split; assumption.
Defined.
